(** * Amortization schedule of the EMI calculator (src/emi.py)

    A shallow embedding of [calculate_emi] and [generate_schedule], and of
    the result section of the script around them.

    The two Python functions are duck-typed: all they ask of their numeric
    arguments is [+ - * /], [math.pow], [round(_, 2)] and comparisons.  The
    embedding keeps them generic over that interface ([PyNum]), with the
    exceptions of [/] and [math.pow] in a result monad.  What is proved of
    the guards, the loop, the clamp, the early exit, the row numbers, the
    dates and of how the amounts of a row are computed from one another is
    proved for every arithmetic, from a few laws ([PyNumLaws]) that exact
    rationals and the binary64 floats of Python both obey: the amounts in
    those statements are the ones the operations of the interface give,
    rounding included when the arithmetic is binary64.

    Two instances run the code.  [Binary64.B64_run] computes as Python
    does, on binary64 floats with the [round] of CPython and a stand-in for
    [math.pow].  [Q_PyNum] computes on exact rationals: it runs the generic
    theorems on concrete inputs, and it carries the facts that rounding
    preserves (signs, comparisons, a value within a tolerance).

    The schedule is a [DataFrame] in the source and a list of rows here.
    [pd.date_range(..., freq="MS")] is modelled after the pandas
    documentation, including the failure that the [try]/[except] of
    [generate_schedule] turns into [None] labels.  The page is modelled by
    the values its widgets are given, not by their rendering. *)

From Stdlib Require Import ZArith QArith Qround Qabs Qpower List Bool Lia Lqa.
From Stdlib Require Floats Uint63.
Import ListNotations.

Local Open Scope Z_scope.

(** ** Python exceptions and the result monad *)

Module Py.

Inductive exn : Type :=
| ZeroDivisionError
| OverflowError
| ValueError
| IndexError.

Inductive res (A : Type) : Type :=
| Ok (a : A)
| Raise (e : exn).

Arguments Ok {A} a.
Arguments Raise {A} e.

Definition bind {A B : Type} (c : res A) (k : A -> res B) : res B :=
  match c with
  | Ok a => k a
  | Raise e => Raise e
  end.

End Py.

Import Py.

Notation "x <- c ;; k" := (Py.bind c (fun x => k))
  (at level 61, c at next level, right associativity).


(** ** Calendar dates and [pd.date_range(start, periods, freq="MS")] *)

Module Calendar.

(** A [datetime.date]. *)
Record date : Type := mkdate { year : Z; month : Z; day : Z }.

Definition date_leb (a b : date) : bool :=
  (year a <? year b)
  || ((year a =? year b)
      && ((month a <? month b)
          || ((month a =? month b) && (day a <=? day b)))).

(** Months counted from year 0: the month of [d]. *)
Definition month_index (d : date) : Z := year d * 12 + (month d - 1).

(** The first day of the month with index [m]. *)
Definition month_start (m : Z) : date :=
  mkdate (m / 12) (m mod 12 + 1) 1.

(** [MonthBegin.rollforward]: the first month start on or after [d]. *)
Definition rollforward (d : date) : Z :=
  if day d =? 1 then month_index d else month_index d + 1.

(** [d] moved to the month start on or after it, then [k] months on. *)
Definition advance_months (d : date) (k : Z) : date :=
  month_start (rollforward d + k).

(** The dates a nanosecond [Timestamp] can hold at midnight:
    [Timestamp.min] is 1677-09-21 00:12:43.145224193 and
    [Timestamp.max] is 2262-04-11 23:47:16.854775807. *)
Definition Timestamp_min : date := mkdate 1677 9 22.
Definition Timestamp_max : date := mkdate 2262 4 11.

Definition in_bounds (d : date) : bool :=
  date_leb Timestamp_min d && date_leb d Timestamp_max.

(** The month starts [i = 0 .. periods-1] after the rolled-forward start. *)
Definition month_starts (start : date) (periods : Z) : list date :=
  map (fun i => advance_months start (Z.of_nat i))
      (seq 0 (Z.to_nat periods)).

(** [pd.date_range(start=start, periods=periods, freq="MS")]: [None] when
    pandas raises because the start or the last generated month start
    falls outside the [Timestamp] bounds. *)
Definition date_range_MS (start : date) (periods : Z) : option (list date) :=
  if in_bounds start
     && in_bounds (advance_months start (periods - 1))
  then Some (month_starts start periods)
  else None.

End Calendar.

Import Calendar.

(** ** The numeric interface the two functions rely on *)

Class PyNum (F : Type) : Type := {
  (* an integer literal of the source ([0], [1], [12], [100]) *)
  lit : Z -> F;
  (* the implicit conversion of the [int] [total_months] *)
  of_int : Z -> F;
  add : F -> F -> F;
  sub : F -> F -> F;
  mul : F -> F -> F;
  (* [x / y]; raises [ZeroDivisionError] *)
  div : F -> F -> res F;
  (* [math.pow(x, n)] for an [int] exponent *)
  pow : F -> Z -> res F;
  leb : F -> F -> bool;     (* x <= y *)
  gtb : F -> F -> bool;     (* x > y *)
  eqb : F -> F -> bool;     (* x == y *)
  (* [round(x, 2)] *)
  round2 : F -> F
}.

Section Emi.

Context {F : Type} {N : PyNum F}.

(** [monthly_rate = annual_rate / 12 / 100] *)
Definition monthly_rate_of (annual_rate : F) : res F :=
  r12 <- div annual_rate (lit 12) ;;
  div r12 (lit 100).

(** [calculate_emi], lines 80-93. *)
Definition calculate_emi (principal annual_rate : F) (total_months : Z)
  : res F :=
  if total_months <=? 0 then Ok (lit 0)
  else
    monthly_rate <- monthly_rate_of annual_rate ;;
    if eqb monthly_rate (lit 0) then
      div principal (of_int total_months)
    else
      p1 <- pow (add (lit 1) monthly_rate) total_months ;;
      p2 <- pow (add (lit 1) monthly_rate) total_months ;;
      div (mul (mul principal monthly_rate) p1) (sub p2 (lit 1)).

(** One row of the schedule (a [dict] appended to [rows]). *)
Record row : Type := mkrow {
  Month_no : Z;
  Date : option date;
  Opening_Balance : F;
  EMI : F;
  Principal_Component : F;
  Interest_Component : F;
  Closing_Balance : F
}.

(** The values of one period before they are rounded for the row. *)
Record period : Type := mkperiod {
  p_balance : F;
  p_emi_actual : F;
  p_principal : F;
  p_interest : F;
  p_closing : F
}.

(** [dates[i]]. *)
Definition dates_get (dates : list (option date)) (i : Z)
  : res (option date) :=
  match nth_error dates (Z.to_nat i) with
  | Some d => Ok d
  | None => Raise IndexError
  end.

(** The [try]/[except] around [pd.date_range], lines 109-112. *)
Definition schedule_dates (start_date : date) (total_months : Z)
  : list (option date) :=
  match date_range_MS start_date total_months with
  | Some ds => map Some ds
  | None => repeat None (Z.to_nat total_months)
  end.

Section Loop.

Variables (principal monthly_rate emi : F) (total_months : Z).
Variable dates : list (option date).

(** Lines 115-130: the components of one period from the running
    balance. *)
Definition period_of (balance : F) : res period :=
  ip <- (if gtb monthly_rate (lit 0) then
           let interest_component := mul balance monthly_rate in
           Ok (interest_component, sub emi interest_component)
         else
           principal_component <- div principal (of_int total_months) ;;
           Ok (lit 0, principal_component)) ;;
  let interest_component := fst ip in
  let principal_component := snd ip in
  if gtb principal_component balance then
    Ok (mkperiod balance (add balance interest_component)
                 balance interest_component (sub balance balance))
  else
    Ok (mkperiod balance emi principal_component interest_component
                 (sub balance principal_component)).

(** Lines 132-142: the row appended for period [i]. *)
Definition row_of (i : Z) (d : option date) (p : period) : row :=
  mkrow (i + 1) d
        (round2 (p_balance p))
        (round2 (p_emi_actual p))
        (round2 (p_principal p))
        (round2 (p_interest p))
        (round2 (p_closing p)).

(** The [for i in range(total_months)] loop with [k] iterations left,
    from index [i] and running [balance]; [break] when the balance is
    [<= 0] after a period. *)
Fixpoint schedule_rows (k : nat) (i : Z) (balance : F) : res (list row) :=
  match k with
  | O => Ok []
  | S k' =>
      p <- period_of balance ;;
      d <- dates_get dates i ;;
      let r := row_of i d p in
      if leb (p_closing p) (lit 0) then Ok [r]
      else
        rest <- schedule_rows k' (i + 1) (p_closing p) ;;
        Ok (r :: rest)
  end.

(** The same loop, keeping the unrounded values of each period. *)
Fixpoint schedule_periods (k : nat) (balance : F) : res (list period) :=
  match k with
  | O => Ok []
  | S k' =>
      p <- period_of balance ;;
      if leb (p_closing p) (lit 0) then Ok [p]
      else
        rest <- schedule_periods k' (p_closing p) ;;
        Ok (p :: rest)
  end.

(** The runs of the loop as a relation: [trace b k ps] when [k]
    iterations from balance [b] leave the periods [ps]. *)
Inductive trace : F -> nat -> list period -> Prop :=
| trace_exhausted b : trace b O []
| trace_break b k p :
    period_of b = Ok p ->
    leb (p_closing p) (lit 0) = true ->
    trace b (S k) [p]
| trace_continue b k p ps :
    period_of b = Ok p ->
    leb (p_closing p) (lit 0) = false ->
    trace (p_closing p) k ps ->
    trace b (S k) (p :: ps).

(** Period [p] was not clamped: its parts are the unadjusted ones of lines
    115-121 and its payment is the nominal [emi]. *)
Definition nominal (p : period) : Prop :=
  exists interest pc,
    ((gtb monthly_rate (lit 0) = true /\
      interest = mul (p_balance p) monthly_rate /\ pc = sub emi interest)
     \/ (gtb monthly_rate (lit 0) = false /\
         interest = lit 0 /\
         div principal (of_int total_months) = Ok pc)) /\
    gtb pc (p_balance p) = false /\
    p = mkperiod (p_balance p) emi pc interest (sub (p_balance p) pc).

(** The rows of the periods [ps], numbered from index [i]. *)
Fixpoint rows_from (i : Z) (ps : list period) : list row :=
  match ps with
  | [] => []
  | p :: ps' =>
      row_of i (nth (Z.to_nat i) dates None) p :: rows_from (i + 1) ps'
  end.

End Loop.

(** [generate_schedule], lines 96-150.  The [DataFrame] is the list of its
    rows; [pd.DataFrame()] is the empty list. *)
Definition generate_schedule (principal annual_rate : F) (total_months : Z)
    (start_date : date) (emi : F) : res (list row) :=
  if (total_months <=? 0) || leb principal (lit 0) then Ok []
  else
    monthly_rate <- monthly_rate_of annual_rate ;;
    let balance := principal in
    let dates := schedule_dates start_date total_months in
    schedule_rows principal monthly_rate emi total_months dates
                  (Z.to_nat total_months) 0 balance.

(** The unrounded periods behind [generate_schedule]. *)
Definition schedule_trace (principal annual_rate : F) (total_months : Z)
    (emi : F) : res (list period) :=
  if (total_months <=? 0) || leb principal (lit 0) then Ok []
  else
    monthly_rate <- monthly_rate_of annual_rate ;;
    schedule_periods principal monthly_rate emi total_months
                     (Z.to_nat total_months) principal.

(** Row [r] shows the values of period [p], rounded to two decimals. *)
Definition rounds (r : row) (p : period) : Prop :=
  Opening_Balance r = round2 (p_balance p) /\
  EMI r = round2 (p_emi_actual p) /\
  Principal_Component r = round2 (p_principal p) /\
  Interest_Component r = round2 (p_interest p) /\
  Closing_Balance r = round2 (p_closing p).

(** The rows are numbered 1, 2, 3, ... in order. *)
Definition numbered_from_one (rows : list row) : Prop :=
  forall j r, nth_error rows j = Some r -> Month_no r = Z.of_nat j + 1.

(** The run stopped early only on a balance [<= 0], and stopped as soon as
    one occurred. *)
Definition stops_on_closed_balance (total_months : Z) (ps : list period)
  : Prop :=
  (Z.of_nat (length ps) < total_months ->
   exists ps' p, ps = ps' ++ [p] /\ leb (p_closing p) (lit 0) = true) /\
  (forall ps' p ps'', ps = ps' ++ p :: ps'' -> ps'' <> [] ->
   leb (p_closing p) (lit 0) = false).

End Emi.

Arguments row F : clear implicits.
Arguments period F : clear implicits.

(** What the loop needs of the arithmetic to run [total_months] periods to
    the end: dividing by the literals [12] and [100] and by the number of
    months does not raise, a zero annual rate is a zero monthly rate, and a
    balance that was just clamped closes at [<= 0]. *)
Class PyNumLaws {F : Type} (N : PyNum F) (total_months : Z) : Prop := {
  div_12_ok : forall x, exists y, div x (lit 12) = Ok y;
  div_100_ok : forall x, exists y, div x (lit 100) = Ok y;
  div_months_ok : forall x, exists y, div x (of_int total_months) = Ok y;
  zero_rate_ok : exists z,
      monthly_rate_of (lit 0) = Ok z /\
      eqb z (lit 0) = true /\ gtb z (lit 0) = false;
  sub_self_closed : forall x y,
      gtb y x = true -> leb x (lit 0) = false ->
      leb (sub x x) (lit 0) = true
}.

(** ** Exact rational arithmetic

    The code evaluated without rounding.  Exact rationals neither round nor
    overflow: this instance is used where that makes no difference to what
    is stated. *)

Module Exact.

Local Open Scope Q_scope.

(** Round half to even, the rule of [round]. *)
Definition round_half_even (x : Q) : Z :=
  let n := Qnum x in
  let d := Zpos (Qden x) in
  let fl := (n / d)%Z in
  let rm := (n mod d)%Z in
  if (2 * rm <? d)%Z then fl
  else if (d <? 2 * rm)%Z then (fl + 1)%Z
  else if Z.even fl then fl else (fl + 1)%Z.

Definition Qround2 (x : Q) : Q :=
  inject_Z (round_half_even (x * 100)) / 100.

Definition Qdiv_py (x y : Q) : res Q :=
  if Qeq_bool y 0 then Raise ZeroDivisionError else Ok (x / y).

(** [math.pow(x, n)] without rounding: [math.pow(0, n)] with [n < 0]
    raises [ValueError].  The [OverflowError] of a result too large for a
    float has no counterpart in exact arithmetic; it is in
    [Binary64.pow_by_products]. *)
Definition Qpow_py (x : Q) (n : Z) : res Q :=
  if (n <? 0)%Z && Qeq_bool x 0 then Raise ValueError else Ok (x ^ n).

#[export] Instance Q_PyNum : PyNum Q := {
  lit := inject_Z;
  of_int := inject_Z;
  add := Qplus;
  sub := Qminus;
  mul := Qmult;
  div := Qdiv_py;
  pow := Qpow_py;
  leb := Qle_bool;
  gtb := fun x y => negb (Qle_bool x y);
  eqb := Qeq_bool;
  round2 := Qround2
}.




End Exact.

Import Exact.


(** ** Binary64 arithmetic *)

Module Binary64.

Import SpecFloat FloatOps.

(** Python's [float] is an IEEE 754 binary64 number, like the primitive
    [float] of Rocq. *)
Definition float : Set := PrimFloat.float.

(** The [float] of an [int], rounded to nearest even; above a machine word
    it is given by the specification of the format. *)
Definition of_Z (z : Z) : float :=
  match z with
  | Z0 => PrimFloat.zero
  | Zpos _ =>
      if z <? 2 ^ 63 then PrimFloat.of_uint63 (Uint63.of_Z z)
      else SF2Prim (binary_normalize prec emax z 0 false)
  | Zneg _ =>
      if - z <? 2 ^ 63
      then PrimFloat.opp (PrimFloat.of_uint63 (Uint63.of_Z (- z)))
      else SF2Prim (binary_normalize prec emax z 0 false)
  end.

(** [x / y] on floats: [ZeroDivisionError] for a zero divisor of either
    sign, the IEEE quotient otherwise. *)
Definition div_py (x y : float) : res float :=
  if PrimFloat.eqb y PrimFloat.zero then Raise ZeroDivisionError
  else Ok (PrimFloat.div x y).

Section Library.

(** [math.pow] is the C library's and [round] is Python's: neither is fixed
    here. *)
Variable math_pow : float -> Z -> res float.
Variable round_2 : float -> float.

Definition B64_PyNum : PyNum float := {|
  lit := of_Z;
  of_int := of_Z;
  add := PrimFloat.add;
  sub := PrimFloat.sub;
  mul := PrimFloat.mul;
  div := div_py;
  pow := math_pow;
  leb := PrimFloat.leb;
  gtb := fun x y => PrimFloat.ltb y x;
  eqb := PrimFloat.eqb;
  round2 := round_2
|}.

End Library.

(** *** Running the code on concrete floats

    To evaluate the two functions on given floats the two library
    functions need values. *)

(** The rational a finite float stands for. *)
Definition value (m : positive) (e : Z) : Q :=
  if 0 <=? e then inject_Z (Zpos m * 2 ^ e)
  else Zpos m # Z.to_pos (2 ^ (- e)).

(** [round(x, 2)] of CPython: the two-decimal number nearest to the exact
    value of [x], ties to even, then the float nearest to that number;
    zeros, infinities and NaN are returned as they are. *)
Definition round_2_py (x : float) : float :=
  match Prim2SF x with
  | S754_finite s m e =>
      match round_half_even (value m e * 100) with
      | Zpos k =>
          SF2Prim (SFdiv prec emax (S754_finite s k 0)
                         (S754_finite false 100 0))
      | _ => if s then PrimFloat.opp PrimFloat.zero else PrimFloat.zero
      end
  | _ => x
  end.

(** [math.pow(x, n)] by repeated multiplication: a stand-in for the C
    library's function, which it equals for exponent 1, the exponent of the
    runs below, and approximates to a few units in the last place
    otherwise.  A finite base with an infinite result raises
    [OverflowError], [0 ** n] with [n < 0] raises [ValueError]. *)
Definition pow_by_products (x : float) (n : Z) : res float :=
  if n <? 0 then
    if PrimFloat.eqb x PrimFloat.zero then Raise ValueError
    else Ok (PrimFloat.div (of_Z 1) (Z.iter (- n) (PrimFloat.mul x) (of_Z 1)))
  else
    let p := Z.iter n (PrimFloat.mul x) (of_Z 1) in
    if PrimFloat.eqb (PrimFloat.abs p) PrimFloat.infinity
       && negb (PrimFloat.eqb (PrimFloat.abs x) PrimFloat.infinity)
    then Raise OverflowError
    else Ok p.

Definition B64_run : PyNum float := B64_PyNum pow_by_products round_2_py.


End Binary64.

(** ** The result section of the page *)

Section Page.

Context {F : Type} {N : PyNum F}.

(** Lines 214-216: the columns of the chart, indexed by [Month #]. *)
Definition chart_df (df_schedule : list (row F)) : list (Z * (F * F)) :=
  map (fun r => (Month_no r, (Principal_Component r, Interest_Component r)))
      df_schedule.

(** What the schedule section shows, lines 197-217: the [st.info] message,
    or the table (also offered as CSV) and the chart. *)
Inductive schedule_view : Type :=
| Schedule_info
| Schedule_shown (table : list (row F)) (chart : list (Z * (F * F))).

(** The numbers of the result section: the three metrics, the monthly
    percentage of the formula details, and the schedule. *)
Record result : Type := mkresult {
  monthly_emi : F;
  total_interest : F;
  total_payment : F;
  rate_per_month : F;
  schedule : schedule_view
}.

(** What the page shows below the form. *)
Inductive page : Type :=
| Idle
| Error_loan_amount     (* "Loan Amount must be greater than 0." *)
| Error_tenure          (* "Tenure must be greater than 0." *)
| Showing (r : result).

(** Lines 156-217, with each widget standing for the value it is given. *)
Definition display_results (submitted : bool) (principal annual_rate : F)
    (total_months : Z) (start_date : date) : res page :=
  if submitted then
    if leb principal (lit 0) then Ok Error_loan_amount
    else if total_months <=? 0 then Ok Error_tenure
    else
      emi <- calculate_emi principal annual_rate total_months ;;
      let total_payment := mul emi (of_int total_months) in
      let total_interest := sub total_payment principal in
      rate_shown <- div annual_rate (lit 12) ;;
      df_schedule <- generate_schedule principal annual_rate total_months
                                       start_date emi ;;
      match df_schedule with
      | [] =>
          Ok (Showing (mkresult emi total_interest total_payment rate_shown
                                Schedule_info))
      | _ :: _ =>
          Ok (Showing (mkresult emi total_interest total_payment rate_shown
                                (Schedule_shown df_schedule
                                                (chart_df df_schedule))))
      end
  else Ok Idle.

(** A row without its date. *)
Definition undated (r : row F) : row F :=
  mkrow (Month_no r) None (Opening_Balance r) (EMI r)
        (Principal_Component r) (Interest_Component r) (Closing_Balance r).

(** Two periods with the same amounts, whatever payment they show. *)
Definition same_amounts (p p' : period F) : Prop :=
  p_balance p = p_balance p' /\ p_principal p = p_principal p' /\
  p_interest p = p_interest p' /\ p_closing p = p_closing p'.

End Page.

Arguments schedule_view F : clear implicits.
Arguments result F : clear implicits.
Arguments page F : clear implicits.


(** * Facts that hold for every arithmetic *)

Section Generic.

Context {F : Type} {N : PyNum F}.

Lemma bind_Ok {A B : Type} (c : res A) (k : A -> res B) (b : B) :
  Py.bind c k = Ok b <-> exists a, c = Ok a /\ k a = Ok b.
Proof.
  destruct c as [a|e]; simpl; split.
  - intros H; exists a; split; [reflexivity | exact H].
  - intros [a' [Ha Hk]]; inversion Ha; subst; exact Hk.
  - discriminate.
  - intros [a' [Ha _]]; discriminate.
Qed.

Section LoopFacts.

Variables (principal monthly_rate emi : F) (total_months : Z).
Variable dates : list (option date).

Local Abbreviation step := (period_of principal monthly_rate emi total_months).
Local Abbreviation run := (trace principal monthly_rate emi total_months).
Local Abbreviation periods :=
  (schedule_periods principal monthly_rate emi total_months).
Local Abbreviation rows :=
  (schedule_rows principal monthly_rate emi total_months dates).
Local Abbreviation rowsfrom := (rows_from dates).

(** The two shapes of a period: clamped, or paid with the nominal
    amount. *)
Lemma period_of_cases b p :
  step b = Ok p ->
  exists interest pc,
    ((gtb monthly_rate (lit 0) = true /\
      interest = mul b monthly_rate /\ pc = sub emi interest)
     \/ (gtb monthly_rate (lit 0) = false /\
         interest = lit 0 /\
         div principal (of_int total_months) = Ok pc)) /\
    ((gtb pc b = true /\
      p = mkperiod b (add b interest) b interest (sub b b))
     \/ (gtb pc b = false /\
         p = mkperiod b emi pc interest (sub b pc))).
Proof.
  unfold period_of.
  destruct (gtb monthly_rate (lit 0)) eqn:Hr; simpl.
  - intros H. exists (mul b monthly_rate), (sub emi (mul b monthly_rate)).
    split; [left; auto |].
    destruct (gtb (sub emi (mul b monthly_rate)) b);
      inversion H; subst; [left | right]; auto.
  - destruct (div principal (of_int total_months)) as [pz|e] eqn:Hd;
      simpl; [| discriminate].
    intros H. exists (lit 0), pz.
    split; [right; auto |].
    destruct (gtb pz b); inversion H; subst; [left | right]; auto.
Qed.

Lemma period_of_balance b p : step b = Ok p -> p_balance p = b.
Proof.
  intros H. destruct (period_of_cases _ _ H) as (i & pc & _ & [[_ ->]|[_ ->]]);
    reflexivity.
Qed.


(** The loop function computes exactly the runs of [trace]. *)
Lemma schedule_periods_trace k : forall b ps,
  periods k b = Ok ps <-> run b k ps.
Proof.
  induction k as [|k IH]; intros b ps; simpl.
  - split.
    + intros H; inversion H; constructor.
    + intros H; inversion H; reflexivity.
  - split.
    + intros H. apply bind_Ok in H. destruct H as [p [Hp H]].
      destruct (leb (p_closing p) (lit 0)) eqn:Hc.
      * inversion H; subst. now apply trace_break.
      * apply bind_Ok in H. destruct H as [rest [Hrest H]].
        inversion H; subst.
        apply trace_continue; [assumption | assumption |].
        now apply IH.
    + intros H.
      inversion H as [| b' k' p Hp Hc | b' k' p rest Hp Hc Ht]; subst.
      * rewrite Hp. simpl. now rewrite Hc.
      * rewrite Hp. simpl. rewrite Hc.
        apply IH in Ht. rewrite Ht. reflexivity.
Qed.

Lemma trace_length b k ps : run b k ps -> (length ps <= k)%nat.
Proof. induction 1; simpl; lia. Qed.

(** A run that is shorter than its bound ended on a balance [<= 0]. *)
Lemma trace_short b k ps :
  run b k ps -> (length ps < k)%nat ->
  exists ps' p, ps = ps' ++ [p] /\ leb (p_closing p) (lit 0) = true.
Proof.
  induction 1 as [b | b k p Hp Hc | b k p ps Hp Hc Ht IH]; simpl; intros Hlen.
  - lia.
  - exists [], p. auto.
  - destruct IH as (ps' & q & -> & Hq); [lia |].
    exists (p :: ps'), q. auto.
Qed.

(** Every period but the last left a balance that is not [<= 0]. *)
Lemma trace_open b k ps :
  run b k ps ->
  forall ps' p ps'', ps = ps' ++ p :: ps'' -> ps'' <> [] ->
  leb (p_closing p) (lit 0) = false.
Proof.
  induction 1 as [b | b k p Hp Hc | b k p ps Hp Hc Ht IH];
    intros ps' q ps'' E Hne.
  - destruct ps'; discriminate.
  - destruct ps' as [|x [|y ps']]; simpl in E; inversion E; subst.
    now elim Hne.
  - destruct ps' as [|x ps']; simpl in E; inversion E; subst.
    + assumption.
    + eapply IH; eauto.
Qed.


(** Every period of a run is the period of its own opening balance. *)
Lemma trace_periods b k ps :
  run b k ps -> forall p, In p ps -> step (p_balance p) = Ok p.
Proof.
  induction 1 as [b | b k p Hp Hc | b k p ps Hp Hc Ht IH]; intros q Hq.
  - destruct Hq.
  - destruct Hq as [<- | []]. now rewrite (period_of_balance _ _ Hp).
  - destruct Hq as [<- | Hq]; [| now apply IH].
    now rewrite (period_of_balance _ _ Hp).
Qed.

(** The rows are the rounded periods, as long as [dates] is long
    enough for the indices used. *)
Lemma schedule_rows_periods k : forall i b,
  0 <= i -> (Z.to_nat i + k <= length dates)%nat ->
  rows k i b =
  (ps <- periods k b ;; Ok (rowsfrom i ps)).
Proof.
  induction k as [|k IH]; intros i b Hi Hlen; simpl; [reflexivity |].
  destruct (step b) as [p|e]; simpl; [| reflexivity].
  unfold dates_get.
  destruct (nth_error dates (Z.to_nat i)) as [d|] eqn:Hd.
  - simpl. pose proof (nth_error_nth _ _ None Hd) as Hn.
    destruct (leb (p_closing p) (lit 0)); simpl; [now rewrite Hn |].
    rewrite IH by lia.
    destruct (periods k (p_closing p)); simpl; [now rewrite Hn | reflexivity].
  - apply nth_error_None in Hd. lia.
Qed.

Lemma rows_from_length ps : forall i, length (rowsfrom i ps) = length ps.
Proof. induction ps as [|p ps IH]; intros i; simpl; [| rewrite IH]; reflexivity. Qed.

Lemma rows_from_app ps1 : forall i ps2,
  rowsfrom i (ps1 ++ ps2) =
  rowsfrom i ps1 ++ rowsfrom (i + Z.of_nat (length ps1)) ps2.
Proof.
  induction ps1 as [|p ps1 IH]; intros i ps2; simpl.
  - now rewrite Z.add_0_r.
  - rewrite IH. do 3 f_equal. lia.
Qed.

Lemma rows_from_nth ps : forall i j r,
  nth_error (rowsfrom i ps) j = Some r ->
  exists p, nth_error ps j = Some p /\
            r = row_of (i + Z.of_nat j)
                       (nth (Z.to_nat (i + Z.of_nat j)) dates None) p.
Proof.
  induction ps as [|p ps IH]; intros i j r H.
  - destruct j; discriminate.
  - destruct j as [|j]; simpl in H.
    + inversion H; subst. exists p. simpl. now rewrite Z.add_0_r.
    + destruct (IH _ _ _ H) as (q & Hq & ->).
      exists q. split; [assumption |].
      replace (i + 1 + Z.of_nat j) with (i + Z.of_nat (S j)) by lia.
      reflexivity.
Qed.

Lemma rows_from_rounds ps : forall i, Forall2 rounds (rowsfrom i ps) ps.
Proof.
  induction ps as [|p ps IH]; intros i; simpl; constructor.
  - repeat split.
  - apply IH.
Qed.



End LoopFacts.

(** The guard of [generate_schedule]. *)
Lemma generate_schedule_rejects principal annual_rate total_months start_date emi :
  total_months <= 0 \/ leb principal (lit 0) = true ->
  generate_schedule principal annual_rate total_months start_date emi = Ok [].
Proof.
  intros [Hn | HP]; unfold generate_schedule.
  - apply Z.leb_le in Hn. now rewrite Hn.
  - rewrite HP. now rewrite orb_true_r.
Qed.

(** ** The dates column *)

Lemma month_starts_length d n : length (month_starts d n) = Z.to_nat n.
Proof. unfold month_starts. now rewrite length_map, length_seq. Qed.

Lemma schedule_dates_length d n :
  length (schedule_dates d n) = Z.to_nat n.
Proof.
  unfold schedule_dates. destruct (date_range_MS d n) as [ds|] eqn:E.
  - unfold date_range_MS in E.
    destruct (in_bounds d && in_bounds (advance_months d (n - 1)));
      inversion E; subst.
    now rewrite length_map, month_starts_length.
  - apply repeat_length.
Qed.

(** [dates[j]] for an index of the loop. *)
Lemma schedule_dates_nth d n j :
  (j < Z.to_nat n)%nat ->
  nth j (schedule_dates d n) None =
  match date_range_MS d n with
  | Some _ => Some (advance_months d (Z.of_nat j))
  | None => None
  end.
Proof.
  intros Hj. unfold schedule_dates.
  destruct (date_range_MS d n) as [ds|] eqn:E.
  - unfold date_range_MS in E.
    destruct (in_bounds d && in_bounds (advance_months d (n - 1)));
      inversion E; subst.
    unfold month_starts.
    rewrite map_map.
    rewrite (nth_indep _ None (Some (advance_months d (Z.of_nat 0))))
      by now rewrite length_map, length_seq.
    rewrite (map_nth (fun i => Some (advance_months d (Z.of_nat i)))
                     (seq 0 (Z.to_nat n)) 0%nat j).
    now rewrite seq_nth.
  - apply nth_repeat.
Qed.

(** A start on the first of a month is its own month start. *)
Lemma advance_months_0 d :
  day d = 1 -> 1 <= month d <= 12 -> advance_months d 0 = d.
Proof.
  destruct d as [y m d]. simpl. intros -> Hm.
  unfold advance_months, rollforward, month_start, month_index. simpl.
  f_equal; Z.div_mod_to_equations; lia.
Qed.

(** ** Running to the end *)

Section Total.

Variable total_months : Z.
Context {L : PyNumLaws N total_months}.

Lemma monthly_rate_of_total annual_rate :
  exists r, monthly_rate_of annual_rate = Ok r.
Proof.
  unfold monthly_rate_of.
  destruct (div_12_ok annual_rate) as [r12 ->]. simpl.
  apply div_100_ok.
Qed.

Lemma period_of_total principal monthly_rate emi b :
  exists p, period_of principal monthly_rate emi total_months b = Ok p.
Proof.
  unfold period_of.
  destruct (gtb monthly_rate (lit 0)); simpl.
  - destruct (gtb _ b); eauto.
  - destruct (div_months_ok principal) as [pz ->]. simpl.
    destruct (gtb pz b); eauto.
Qed.

Lemma schedule_periods_total principal monthly_rate emi :
  forall k b, exists ps,
    schedule_periods principal monthly_rate emi total_months k b = Ok ps.
Proof.
  induction k as [|k IH]; intros b; simpl; [eauto |].
  destruct (period_of_total principal monthly_rate emi b) as [p ->]. simpl.
  destruct (leb (p_closing p) (lit 0)); [eauto |].
  destruct (IH (p_closing p)) as [ps ->]. simpl. eauto.
Qed.

(** An accepted input yields the rows of a run of the loop. *)
Lemma generate_schedule_run principal annual_rate start_date emi :
  0 < total_months -> leb principal (lit 0) = false ->
  exists r ps,
    monthly_rate_of annual_rate = Ok r /\
    trace principal r emi total_months principal (Z.to_nat total_months) ps /\
    schedule_trace principal annual_rate total_months emi = Ok ps /\
    generate_schedule principal annual_rate total_months start_date emi =
    Ok (rows_from (schedule_dates start_date total_months) 0 ps).
Proof.
  intros Hn HP.
  destruct (monthly_rate_of_total annual_rate) as [r Hr].
  destruct (schedule_periods_total principal r emi
              (Z.to_nat total_months) principal) as [ps Hps].
  exists r, ps. split; [assumption |]. split.
  { now apply schedule_periods_trace. }
  unfold schedule_trace, generate_schedule.
  assert ((total_months <=? 0) = false) as -> by (apply Z.leb_gt; lia).
  rewrite HP, Hr. simpl. split; [assumption |].
  rewrite schedule_rows_periods.
  - rewrite Hps. reflexivity.
  - lia.
  - rewrite schedule_dates_length. simpl. lia.
Qed.

(** A clamped period closes the schedule: every period before the last is
    nominal. *)
Lemma inner_periods_nominal principal r emi b k ps :
  leb b (lit 0) = false ->
  trace principal r emi total_months b k ps ->
  forall ps' p ps'', ps = ps' ++ p :: ps'' -> ps'' <> [] ->
  nominal principal r emi total_months p.
Proof.
  intros Hb Ht. revert Hb.
  induction Ht as [b | b k p Hp Hc | b k p ps Hp Hc Ht IH];
    intros Hb ps' q ps'' E Hne.
  - destruct ps'; discriminate.
  - destruct ps' as [|x [|y ps']]; simpl in E; inversion E; subst.
    now elim Hne.
  - destruct ps' as [|x ps']; simpl in E; inversion E; subst.
    + destruct (period_of_cases _ _ _ _ _ _ Hp)
        as (i & pc & Hbr & [[Hg ->] | [Hg ->]]).
      * simpl in Hc. rewrite (sub_self_closed _ _ Hg Hb) in Hc. discriminate.
      * exists i, pc. simpl. auto.
    + eapply IH; eauto.
Qed.

End Total.

End Generic.

(** * Exact arithmetic obeys the laws *)

Module ExactLaws.

Local Open Scope Q_scope.

Lemma Qdiv_py_Ok x y : ~ y == 0 -> Qdiv_py x y = Ok (x / y).
Proof.
  intros Hy. unfold Qdiv_py.
  destruct (Qeq_bool y 0) eqn:E; [| reflexivity].
  apply Qeq_bool_iff in E. contradiction.
Qed.

Lemma inject_Z_nonzero n : (0 < n)%Z -> ~ inject_Z n == 0.
Proof.
  intros Hn E. unfold Qeq in E. simpl in E. lia.
Qed.


Lemma gtb_false (x y : Q) : gtb x y = false <-> x <= y.
Proof.
  simpl. rewrite negb_false_iff. apply Qle_bool_iff.
Qed.

Lemma leb_true (x y : Q) : leb x y = true <-> x <= y.
Proof. apply Qle_bool_iff. Qed.

Lemma leb_false (x y : Q) : leb x y = false <-> y < x.
Proof.
  simpl. split.
  - intros H. apply Qnot_le_lt. intros Hle.
    apply Qle_bool_iff in Hle. congruence.
  - intros H. destruct (Qle_bool x y) eqn:E; [| reflexivity].
    apply Qle_bool_iff in E. exfalso. lra.
Qed.

(** ** Rounding to two decimals *)

Lemma round_half_even_Z n d :
  let k := round_half_even (n # d) in
  (2 * k * Zpos d - Zpos d <= 2 * n <= 2 * k * Zpos d + Zpos d /\
   (2 * n = 2 * k * Zpos d + Zpos d \/ 2 * n = 2 * k * Zpos d - Zpos d ->
    Z.even k = true))%Z.
Proof.
  unfold round_half_even. simpl Qnum. simpl Qden.
  pose proof (Z.div_mod n (Zpos d) ltac:(lia)) as Hdm.
  pose proof (Z.mod_pos_bound n (Zpos d) ltac:(lia)) as Hb.
  set (fl := (n / Zpos d)%Z) in *. set (rm := (n mod Zpos d)%Z) in *.
  destruct (2 * rm <? Zpos d)%Z eqn:E1.
  - apply Z.ltb_lt in E1. cbv zeta. split; [nia | intros [H|H]; nia].
  - apply Z.ltb_ge in E1. destruct (Zpos d <? 2 * rm)%Z eqn:E2.
    + apply Z.ltb_lt in E2. cbv zeta. split; [nia | intros [H|H]; nia].
    + apply Z.ltb_ge in E2. destruct (Z.even fl) eqn:E3; cbv zeta.
      * split; [nia | intros _; exact E3].
      * split; [nia | intros _]. rewrite Z.even_add, E3. reflexivity.
Qed.

Lemma round_half_even_near x :
  inject_Z (round_half_even x) - (1 # 2) <= x <=
  inject_Z (round_half_even x) + (1 # 2).
Proof.
  destruct x as [n d].
  destruct (round_half_even_Z n d) as [[H1 H2] _].
  set (k := round_half_even (n # d)) in *.
  unfold Qle, Qminus, Qplus, Qopp, inject_Z. simpl.
  split; lia.
Qed.

Lemma round_half_even_tie x :
  x == inject_Z (round_half_even x) - (1 # 2) \/
  x == inject_Z (round_half_even x) + (1 # 2) ->
  Z.even (round_half_even x) = true.
Proof.
  destruct x as [n d].
  destruct (round_half_even_Z n d) as [_ H].
  set (k := round_half_even (n # d)) in *.
  unfold Qeq, Qminus, Qplus, Qopp, inject_Z. simpl.
  intros [E|E]; apply H; lia.
Qed.

Lemma round_half_even_mono x y :
  x <= y -> (round_half_even x <= round_half_even y)%Z.
Proof.
  intros Hxy.
  destruct (Z_le_gt_dec (round_half_even x) (round_half_even y)) as [|Hgt];
    [assumption | exfalso].
  pose proof (round_half_even_near x) as [Hx1 Hx2].
  pose proof (round_half_even_near y) as [Hy1 Hy2].
  pose proof (round_half_even_tie x) as Tx.
  pose proof (round_half_even_tie y) as Ty.
  set (kx := round_half_even x) in *. set (ky := round_half_even y) in *.
  assert (ky + 1 <= kx)%Z as Hk by lia.
  rewrite Zle_Qle, inject_Z_plus in Hk.
  change (inject_Z 1) with 1 in Hk.
  assert (inject_Z kx == inject_Z ky + 1) as Ek by lra.
  assert (kx = ky + 1)%Z as Ez.
  { apply inject_Z_injective. rewrite inject_Z_plus. exact Ek. }
  assert (Z.even kx = true) as Ex by (apply Tx; left; lra).
  assert (Z.even ky = true) as Ey by (apply Ty; right; lra).
  rewrite Ez, Z.even_add, Ey in Ex. discriminate.
Qed.

Lemma Qround2_mono x y : x <= y -> Qround2 x <= Qround2 y.
Proof.
  intros Hxy. unfold Qround2.
  assert (x * 100 <= y * 100) as H by lra.
  apply round_half_even_mono in H. rewrite Zle_Qle in H.
  change (inject_Z (round_half_even (x * 100)) / 100)
    with (inject_Z (round_half_even (x * 100)) * (1 # 100)).
  change (inject_Z (round_half_even (y * 100)) / 100)
    with (inject_Z (round_half_even (y * 100)) * (1 # 100)).
  lra.
Qed.

Lemma Qround2_0 : Qround2 0 == 0.
Proof. reflexivity. Qed.


Lemma Qround2_zero x : x == 0 -> Qround2 x == 0.
Proof.
  intros H. apply Qle_antisym.
  - rewrite <- Qround2_0. apply Qround2_mono. lra.
  - rewrite <- Qround2_0. apply Qround2_mono. lra.
Qed.

Lemma Qround2_near x :
  Qround2 x - (1 # 200) <= x <= Qround2 x + (1 # 200).
Proof.
  unfold Qround2.
  pose proof (round_half_even_near (x * 100)) as [H1 H2].
  set (k := inject_Z (round_half_even (x * 100))) in *.
  change (k / 100) with (k * (1 # 100)).
  split; lra.
Qed.

(** Rounding a difference and subtracting the rounded terms differ by at
    most one cent. *)
Lemma Qround2_sub x y :
  Qabs (Qround2 (x - y) - (Qround2 x - Qround2 y)) <= 1 # 100.
Proof.
  unfold Qround2.
  pose proof (round_half_even_near ((x - y) * 100)) as [Hc1 Hc2].
  pose proof (round_half_even_near (x * 100)) as [Hx1 Hx2].
  pose proof (round_half_even_near (y * 100)) as [Hy1 Hy2].
  set (kc := round_half_even ((x - y) * 100)) in *.
  set (kx := round_half_even (x * 100)) in *.
  set (ky := round_half_even (y * 100)) in *.
  assert (inject_Z (kc - kx + ky) == inject_Z kc - inject_Z kx + inject_Z ky)
    as Ez.
  { unfold Z.sub. rewrite !inject_Z_plus, !inject_Z_opp. ring. }
  assert (- 2 < kc - kx + ky < 2)%Z as Hz.
  { split; rewrite Zlt_Qlt, Ez.
    - change (inject_Z (-2)) with (- (2 # 1)). lra.
    - change (inject_Z 2) with (2 # 1). lra. }
  assert (- 1 <= kc - kx + ky <= 1)%Z as Hz' by lia.
  destruct Hz' as [Hl Hu]. rewrite Zle_Qle, Ez in Hl, Hu.
  change (inject_Z (-1)) with (- (1 # 1)) in Hl.
  change (inject_Z 1) with (1 # 1) in Hu.
  apply Qabs_Qle_condition.
  change (inject_Z kc / 100) with (inject_Z kc * (1 # 100)).
  change (inject_Z kx / 100) with (inject_Z kx * (1 # 100)).
  change (inject_Z ky / 100) with (inject_Z ky * (1 # 100)).
  split; lra.
Qed.

Lemma Q_laws n : (0 < n)%Z -> PyNumLaws Q_PyNum n.
Proof.
  intros Hn. constructor.
  - intros x. eexists. reflexivity.
  - intros x. eexists. reflexivity.
  - intros x. eexists. apply Qdiv_py_Ok. now apply inject_Z_nonzero.
  - eexists. repeat split; reflexivity.
  - intros x y _ _. apply leb_true. change (x - x <= 0). lra.
Qed.

End ExactLaws.

Import ExactLaws.

(** * Binary64 obeys the laws *)

Module Binary64Laws.

Import SpecFloat FloatOps FloatAxioms Binary64.

Lemma Prim2SF_zero : Prim2SF PrimFloat.zero = S754_zero false.
Proof. reflexivity. Qed.

(** [x - x] is [+0] for a finite [x]. *)
Lemma SFsub_diag s m e :
  SF64sub (S754_finite s m e) (S754_finite s m e) = S754_zero false.
Proof.
  unfold SF64sub, SFsub. rewrite Z.sub_diag. reflexivity.
Qed.

Lemma float_sub_self_closed (x y : float) :
  PrimFloat.ltb x y = true -> PrimFloat.leb x PrimFloat.zero = false ->
  PrimFloat.leb (PrimFloat.sub x x) PrimFloat.zero = true.
Proof.
  rewrite FloatAxioms.ltb_spec, !FloatAxioms.leb_spec, FloatAxioms.sub_spec, Prim2SF_zero.
  destruct (Prim2SF x) as [s | s | | s m e].
  - intros _ H. discriminate H.
  - destruct s.
    + intros _ H. discriminate H.
    + intros H _. destruct (Prim2SF y) as [? | [] | | [] ? ?]; discriminate H.
  - intros H _. discriminate H.
  - destruct s.
    + intros _ H. discriminate H.
    + intros _ _. rewrite SFsub_diag. reflexivity.
Qed.

(** A mantissa shifted right by fewer bits than it has stays positive. *)
Lemma shr_1_m mrs : 0 <= shr_m mrs -> shr_m (shr_1 mrs) = Z.div2 (shr_m mrs).
Proof.
  destruct mrs as [m r s]. simpl. destruct m as [|[p|p|]|p]; try reflexivity; lia.
Qed.

Lemma iter_shr_1_m n : forall mrs,
  0 <= shr_m mrs ->
  shr_m (iter_pos shr_1 n mrs) = shr_m mrs / 2 ^ Zpos n.
Proof.
  induction n as [n IH | n IH |]; intros mrs Hm; simpl iter_pos.
  - assert (0 <= shr_m (shr_1 mrs)) as H1.
    { rewrite shr_1_m by assumption. rewrite Z.div2_div. apply Z.div_pos; lia. }
    assert (0 <= shr_m (iter_pos shr_1 n (shr_1 mrs))) as H2.
    { rewrite IH by assumption. apply Z.div_pos; lia. }
    rewrite IH, IH, shr_1_m by assumption.
    rewrite Z.div2_div, !Z.div_div by lia.
    f_equal. rewrite <- Z.pow_add_r, <- Z.pow_succ_r by lia. f_equal. lia.
  - assert (0 <= shr_m (iter_pos shr_1 n mrs)) as H2.
    { rewrite IH by assumption. apply Z.div_pos; lia. }
    rewrite IH, IH by assumption.
    rewrite !Z.div_div by lia.
    f_equal. rewrite <- Z.pow_add_r by lia. f_equal. lia.
  - rewrite shr_1_m by assumption. now rewrite Z.div2_div.
Qed.

Lemma digits2_pos_le p : 2 ^ (Zpos (digits2_pos p) - 1) <= Zpos p.
Proof.
  induction p as [p IH | p IH |]; simpl digits2_pos.
  - rewrite Pos2Z.inj_succ.
    replace (Z.succ (Zpos (digits2_pos p)) - 1) with (1 + (Zpos (digits2_pos p) - 1)) by lia.
    rewrite Z.pow_add_r by lia. lia.
  - rewrite Pos2Z.inj_succ.
    replace (Z.succ (Zpos (digits2_pos p)) - 1) with (1 + (Zpos (digits2_pos p) - 1)) by lia.
    rewrite Z.pow_add_r by lia. lia.
  - reflexivity.
Qed.

Lemma shr_fexp_positive m e l :
  - 1021 <= e ->
  let '(mrs, e') := shr_fexp prec emax (Zpos m) e l in
  0 < shr_m mrs /\ - 1021 <= e'.
Proof.
  intros He. unfold shr_fexp, shr, fexp, emin, Zdigits2.
  pose proof (digits2_pos_le m) as Hd.
  set (d := Zpos (digits2_pos m)) in *.
  assert (0 < d) as Hd0 by (unfold d; lia).
  change prec with 53. change emax with 1024.
  replace (Z.max (d + e - 53) (3 - 1024 - 53) - e) with (d - 53) by lia.
  assert (shr_m (shr_record_of_loc (Zpos m) l) = Zpos m) as Hm
    by (destruct l as [|[]]; reflexivity).
  destruct (d - 53) as [|n|n] eqn:En.
  - rewrite Hm. lia.
  - rewrite iter_shr_1_m by (rewrite Hm; lia). rewrite Hm.
    split; [| lia].
    apply Z.div_str_pos. split; [lia |].
    apply Z.le_trans with (2 ^ (d - 1)); [| exact Hd].
    apply Z.pow_le_mono_r; lia.
  - rewrite Hm. lia.
Qed.

Lemma round_nearest_even_positive m l :
  0 < m -> 0 < round_nearest_even m l.
Proof.
  intros Hm. destruct l as [|[]]; simpl; try lia.
  destruct (Z.even m); lia.
Qed.

Lemma binary_round_aux_positive m e :
  - 1021 <= e ->
  SFeqb (binary_round_aux prec emax false (Zpos m) e loc_Exact)
        (S754_zero false) = false.
Proof.
  intros He. unfold binary_round_aux.
  pose proof (shr_fexp_positive m e loc_Exact He) as H1.
  destruct (shr_fexp prec emax (Zpos m) e loc_Exact) as [mrs' e'].
  destruct H1 as [Hm' He'].
  pose proof (round_nearest_even_positive (shr_m mrs') (loc_of_shr_record mrs') Hm')
    as Hr.
  destruct (round_nearest_even (shr_m mrs') (loc_of_shr_record mrs'))
    as [|m''|m''] eqn:Er; try lia.
  pose proof (shr_fexp_positive m'' e' loc_Exact He') as H2.
  destruct (shr_fexp prec emax (Zpos m'') e' loc_Exact) as [mrs'' e''].
  destruct H2 as [Hm'' _].
  destruct (shr_m mrs'') as [|k|k]; try lia.
  destruct (e'' <=? emax - prec); reflexivity.
Qed.

Lemma binary_normalize_positive p :
  SFeqb (binary_normalize prec emax (Zpos p) 0 false) (S754_zero false) = false.
Proof.
  unfold binary_normalize, binary_round, shl_align.
  pose proof (Pos2Z.is_pos (digits2_pos p)) as Hd.
  set (ex' := fexp prec emax (Zpos (digits2_pos p) + 0)).
  assert (- 1021 <= ex') as Hex.
  { unfold ex', fexp, emin. change prec with 53. change emax with 1024. lia. }
  destruct (ex' - 0) as [|d|d]; apply binary_round_aux_positive; lia.
Qed.

Lemma of_uint63_positive (n : Z) :
  0 < n < 2 ^ 63 ->
  PrimFloat.eqb (PrimFloat.of_uint63 (Uint63.of_Z n)) PrimFloat.zero = false.
Proof.
  intros Hn. rewrite FloatAxioms.eqb_spec, FloatAxioms.of_uint63_spec, Prim2SF_zero.
  rewrite Uint63.of_Z_spec. rewrite Z.mod_small by (change Uint63.wB with (2 ^ 63); lia).
  destruct n as [|p|p]; try lia. apply binary_normalize_positive.
Qed.

Lemma of_Z_positive n :
  0 < n < 2 ^ 63 -> PrimFloat.eqb (of_Z n) PrimFloat.zero = false.
Proof.
  intros Hn. unfold of_Z. destruct n as [|p|p]; try lia.
  assert ((Zpos p <? 2 ^ 63) = true) as -> by (apply Z.ltb_lt; lia).
  now apply of_uint63_positive.
Qed.

(** The floats of Python run the loop to its end for every number of months
    that fits a machine word, whatever [math.pow] and [round] return. *)
Lemma B64_laws math_pow round_2 n :
  0 < n < 2 ^ 63 -> PyNumLaws (B64_PyNum math_pow round_2) n.
Proof.
  intros Hn. constructor.
  - intros x. eexists. reflexivity.
  - intros x. eexists. reflexivity.
  - intros x. eexists. cbn [div of_int B64_PyNum]. unfold div_py.
    now rewrite of_Z_positive.
  - eexists. repeat split; reflexivity.
  - intros x y Hg Hb. cbn [gtb leb sub lit B64_PyNum] in *.
    eapply float_sub_self_closed; eassumption.
Qed.

(** 120000 over 12 months at 0% in binary64: the payment is exactly 10000
    and the loop runs 12 periods of principal 10000 and interest 0. *)
Example binary64_zero_rate_scenario math_pow round_2 emi :
  calculate_emi (N := B64_PyNum math_pow round_2) (of_Z 120000) (of_Z 0) 12
  = Ok (of_Z 10000) /\
  exists ps,
    schedule_trace (N := B64_PyNum math_pow round_2)
                   (of_Z 120000) (of_Z 0) 12 emi = Ok ps /\
    length ps = 12%nat /\
    Forall (fun p => p_principal p = of_Z 10000 /\ p_interest p = of_Z 0) ps.
Proof.
  split; [vm_compute; reflexivity |].
  eexists. split; [vm_compute; reflexivity |].
  split; [reflexivity |]. repeat constructor.
Qed.

End Binary64Laws.

(** * The clamp closes on zero *)


Module Binary64Zero.

Import SpecFloat FloatOps FloatAxioms Binary64 Binary64Laws.

(** In binary64 [x - x] is [+0.0] for the balance [x] of a clamped
    period. *)
Lemma B64_sub_self (x y : float) :
  PrimFloat.ltb x y = true -> PrimFloat.leb x (of_Z 0) = false ->
  PrimFloat.eqb (PrimFloat.sub x x) (of_Z 0) = true.
Proof.
  change (of_Z 0) with PrimFloat.zero.
  rewrite FloatAxioms.ltb_spec, FloatAxioms.leb_spec, FloatAxioms.eqb_spec,
    FloatAxioms.sub_spec, Prim2SF_zero.
  destruct (Prim2SF x) as [s | s | | s m e].
  - intros _ H. discriminate H.
  - destruct s.
    + intros _ H. discriminate H.
    + intros H _. destruct (Prim2SF y) as [? | [] | | [] ? ?]; discriminate H.
  - intros H _. discriminate H.
  - destruct s.
    + intros _ H. discriminate H.
    + intros _ _. rewrite SFsub_diag. reflexivity.
Qed.

End Binary64Zero.

(** * Claims that do not depend on the arithmetic *)

Section Structure.

Context {F : Type} {N : PyNum F}.
Variable total_months : Z.
Context {L : PyNumLaws N total_months}.

(** C7.  Degenerate inputs give sentinel results, not errors: with
    [total_months <= 0], [calculate_emi] returns [0]; with
    [total_months <= 0] or [principal <= 0], [generate_schedule] returns the
    empty table. *)
Theorem degenerate_inputs_give_sentinels
    (principal annual_rate emi : F) (start_date : date) :
  (total_months <= 0 ->
   calculate_emi principal annual_rate total_months = Ok (lit 0)) /\
  (total_months <= 0 \/ leb principal (lit 0) = true ->
   generate_schedule principal annual_rate total_months start_date emi
   = Ok []).
Proof.
  split.
  - intros Hn. unfold calculate_emi.
    apply Z.leb_le in Hn. now rewrite Hn.
  - apply generate_schedule_rejects.
Qed.

(** C5.  For an accepted input ([total_months > 0] and not
    [principal <= 0]) and any payment, the schedule is produced, its
    [Month #] values are 1, 2, 3, ... without gaps, it has at most
    [total_months] rows, and it has fewer only because a period closed on a
    balance [<= 0], at which the loop stops at once. *)
Theorem month_numbers_and_length
    (principal annual_rate emi : F) (start_date : date) :
  0 < total_months -> leb principal (lit 0) = false ->
  exists rows ps,
    generate_schedule principal annual_rate total_months start_date emi
    = Ok rows /\
    schedule_trace principal annual_rate total_months emi = Ok ps /\
    Forall2 rounds rows ps /\
    numbered_from_one rows /\
    Z.of_nat (length rows) <= total_months /\
    stops_on_closed_balance total_months ps.
Proof.
  intros Hn HP.
  destruct (generate_schedule_run total_months principal annual_rate
              start_date emi Hn HP) as (r & ps & Hr & Ht & Hst & Hg).
  eexists; exists ps. split; [exact Hg |]. split; [exact Hst |].
  split; [apply rows_from_rounds |].
  split; [| split; [| split]].
  - intros j x Hx. apply rows_from_nth in Hx.
    destruct Hx as (p & _ & ->). simpl. lia.
  - rewrite rows_from_length. apply trace_length in Ht. lia.
  - intros Hlen. eapply trace_short; [exact Ht | lia].
  - eapply trace_open; exact Ht.
Qed.

(** C8.  Every row but the last carries the nominal payment, rounded: only
    a clamped period has its payment recomputed, and a clamped period is
    the last one. *)
Theorem only_last_payment_is_adjusted
    (principal annual_rate emi : F) (start_date : date) :
  0 < total_months -> leb principal (lit 0) = false ->
  exists rows,
    generate_schedule principal annual_rate total_months start_date emi
    = Ok rows /\
    forall j r, nth_error rows j = Some r -> (S j < length rows)%nat ->
    EMI r = round2 emi.
Proof.
  intros Hn HP.
  destruct (generate_schedule_run total_months principal annual_rate
              start_date emi Hn HP) as (r & ps & Hr & Ht & Hst & Hg).
  eexists. split; [exact Hg |].
  intros j x Hx Hj. rewrite rows_from_length in Hj.
  apply rows_from_nth in Hx. destruct Hx as (p & Hp & ->). simpl.
  apply nth_error_split in Hp. destruct Hp as (l1 & l2 & E & Hl1).
  destruct (inner_periods_nominal total_months (L := L) _ _ _ _ _ _ HP Ht
              _ _ _ E) as (i & pc & _ & _ & ->); [| reflexivity].
  intros ->. rewrite E, length_app in Hj. simpl in Hj. lia.
Qed.

(** C9 (as amended).  When [pd.date_range] succeeds, the [Date] of the row
    with [Month #] [i] is the first day of the month [i - 1] months after
    the first month start on or after [start_date] (so [start_date] itself
    for row 1 when its day is 1); when it raises, every [Date] is [None]. *)
Theorem dates_are_month_starts
    (principal annual_rate emi : F) (start_date : date) :
  0 < total_months -> leb principal (lit 0) = false ->
  exists rows,
    generate_schedule principal annual_rate total_months start_date emi
    = Ok rows /\
    (forall j r, nth_error rows j = Some r ->
       Month_no r = Z.of_nat j + 1 /\
       Date r =
       match date_range_MS start_date total_months with
       | Some _ => Some (advance_months start_date (Month_no r - 1))
       | None => None
       end /\
       (forall d, Date r = Some d -> day d = 1)) /\
    (day start_date = 1 -> 1 <= month start_date <= 12 ->
     advance_months start_date 0 = start_date).
Proof.
  intros Hn HP.
  destruct (generate_schedule_run total_months principal annual_rate
              start_date emi Hn HP) as (r & ps & Hr & Ht & Hst & Hg).
  eexists. split; [exact Hg |]. split.
  - intros j x Hx.
    pose proof (nth_error_Some (rows_from (schedule_dates start_date total_months) 0 ps) j)
      as Hlt.
    rewrite Hx, rows_from_length in Hlt.
    assert (j < length ps)%nat as Hj by (apply Hlt; discriminate).
    apply trace_length in Ht.
    apply rows_from_nth in Hx. destruct Hx as (p & _ & ->). simpl.
    split; [lia |].
    rewrite schedule_dates_nth by lia.
    rewrite Z2Nat.id by lia.
    replace (Z.of_nat j + 1 - 1) with (Z.of_nat j) by lia.
    split; [reflexivity |].
    destruct (date_range_MS start_date total_months); intros d Hd;
      inversion Hd; reflexivity.
  - intros Hd Hm. now apply advance_months_0.
Qed.

End Structure.

(** * Claims on the amounts, for every arithmetic *)

Section Amounts.

Context {F : Type} {N : PyNum F}.
Variable total_months : Z.
Context {L : PyNumLaws N total_months}.





Section FinalCorrection.

(** Where the clamp subtracts a balance from itself the result is zero:
    [Q_sub_self] and [B64_sub_self] prove it of exact rationals and of
    binary64. *)
Hypothesis sub_self_zero : forall x y,
  gtb y x = true -> leb x (lit 0) = false -> eqb (sub x x) (lit 0) = true.


End FinalCorrection.


(** ** The branch without interest *)

(** Without interest the payment reaches nothing but the payment column. *)
Lemma zero_branch_ignores_payment principal r emi emi' b k ps :
  gtb r (lit 0) = false ->
  trace principal r emi total_months b k ps ->
  exists ps',
    trace principal r emi' total_months b k ps' /\
    Forall2 same_amounts ps ps'.
Proof.
  intros Hr Ht.
  assert (Hstep : forall b p,
            period_of principal r emi total_months b = Ok p ->
            exists p', period_of principal r emi' total_months b = Ok p' /\
                       same_amounts p p').
  { intros c p. unfold period_of. rewrite Hr.
    destruct (div principal (of_int total_months)) as [share|e];
      cbn [Py.bind fst snd]; [| discriminate].
    destruct (gtb share c); intros H; injection H as <-;
      eexists; (split; [reflexivity | repeat split]). }
  induction Ht as [b | b k p Hp Hc | b k p ps Hp Hc Ht IH].
  - exists []. split; constructor.
  - destruct (Hstep _ _ Hp) as (p' & Hp' & Hs).
    exists [p']. split; [| constructor; [exact Hs | constructor]].
    apply trace_break; [exact Hp' |].
    destruct Hs as (_ & _ & _ & <-). exact Hc.
  - destruct (Hstep _ _ Hp) as (p' & Hp' & Hs).
    destruct IH as (ps' & Ht' & Hall).
    exists (p' :: ps'). split; [| constructor; assumption].
    destruct Hs as (H1 & H2 & H3 & H4).
    apply trace_continue; [exact Hp' | now rewrite <- H4 | now rewrite <- H4].
Qed.

(** C10 (as amended).  For [total_months > 0] and a monthly rate that is
    neither zero nor positive (a negative annual rate), [calculate_emi]
    evaluates the compound formula, its test being [== 0], while
    [generate_schedule], whose test is [> 0], takes the branch without
    interest: every period has interest 0 and principal part
    [principal / total_months] (the balance, if a last period is clamped),
    and the payment only fills the payment column: another payment gives
    the same balances, principal parts and interest. *)
Theorem negative_rate_branches_disagree
    (principal annual_rate emi r : F) (start_date : date) :
  0 < total_months ->
  monthly_rate_of annual_rate = Ok r ->
  eqb r (lit 0) = false -> gtb r (lit 0) = false ->
  calculate_emi principal annual_rate total_months
  = (p1 <- pow (add (lit 1) r) total_months ;;
     p2 <- pow (add (lit 1) r) total_months ;;
     div (mul (mul principal r) p1) (sub p2 (lit 1))) /\
  (leb principal (lit 0) = false ->
   exists share rows ps,
     div principal (of_int total_months) = Ok share /\
     generate_schedule principal annual_rate total_months start_date emi
     = Ok rows /\
     schedule_trace principal annual_rate total_months emi = Ok ps /\
     Forall2 rounds rows ps /\
     (forall p, In p ps ->
        p_interest p = lit 0 /\
        ((gtb share (p_balance p) = false /\
          p_principal p = share /\ p_emi_actual p = emi)
         \/ (gtb share (p_balance p) = true /\
             p_principal p = p_balance p /\
             p_emi_actual p = add (p_balance p) (lit 0)))) /\
     (forall ps' p ps'', ps = ps' ++ p :: ps'' -> ps'' <> [] ->
        p_principal p = share /\ p_emi_actual p = emi) /\
     (forall emi', exists ps',
        schedule_trace principal annual_rate total_months emi' = Ok ps' /\
        Forall2 same_amounts ps ps')).
Proof.
  intros Hn Hr Hnz Hneg. split.
  { unfold calculate_emi.
    assert ((total_months <=? 0) = false) as -> by (apply Z.leb_gt; lia).
    rewrite Hr. cbn [Py.bind]. now rewrite Hnz. }
  intros HP.
  destruct (div_months_ok principal) as [share Hshare].
  destruct (generate_schedule_run total_months principal annual_rate
              start_date emi Hn HP) as (r' & ps & Hr' & Ht & Hst & Hrows).
  rewrite Hr in Hr'. injection Hr' as <-.
  exists share. eexists; exists ps.
  split; [exact Hshare |]. split; [exact Hrows |]. split; [exact Hst |].
  split; [apply rows_from_rounds |]. split; [| split].
  - intros p Hp.
    pose proof (trace_periods _ _ _ _ _ _ _ Ht p Hp) as Hstep.
    destruct (period_of_cases _ _ _ _ _ _ Hstep)
      as (i & pc & [(Hpos & _) | (_ & -> & Hd)] & Hshape); [congruence |].
    rewrite Hshare in Hd. injection Hd as <-.
    destruct Hshape as [[Hg ->] | [Hg ->]]; simpl; auto.
  - intros ps' p ps'' E Hne.
    destruct (inner_periods_nominal total_months _ _ _ _ _ _ HP Ht
                _ _ _ E Hne)
      as (i & pc & [(Hpos & _) | (_ & _ & Hd)] & _ & Ep); [congruence |].
    rewrite Hshare in Hd. injection Hd as <-.
    rewrite Ep. split; reflexivity.
  - intros emi'.
    destruct (zero_branch_ignores_payment _ _ _ emi' _ _ _ Hneg Ht)
      as (ps' & Ht' & Hall).
    exists ps'. split; [| exact Hall].
    unfold schedule_trace.
    assert ((total_months <=? 0) = false) as -> by (apply Z.leb_gt; lia).
    rewrite HP, Hr. cbn [orb Py.bind].
    now apply schedule_periods_trace.
Qed.

End Amounts.

(** * Schedules in exact arithmetic *)

Section ExactRuns.

Local Open Scope Q_scope.

Lemma inject_Z_succ k :
  inject_Z (Z.of_nat (S k)) == inject_Z (Z.of_nat k) + 1.
Proof. rewrite Nat2Z.inj_succ. unfold Z.succ. now rewrite inject_Z_plus. Qed.

Lemma inject_Z_nat_nonneg k : 0 <= inject_Z (Z.of_nat k).
Proof. change 0 with (inject_Z 0). rewrite <- Zle_Qle. lia. Qed.

Lemma In_rows_from dates ps : forall i (r : row Q),
  In r (rows_from dates i ps) ->
  exists j d p, In p ps /\ r = row_of j d p.
Proof.
  induction ps as [|p ps IH]; intros i r H; simpl in H; [destruct H |].
  destruct H as [<- | H].
  - do 3 eexists. split; [left; reflexivity | reflexivity].
  - destruct (IH _ _ H) as (j & d & q & Hq & ->).
    exists j, d, q. split; [right; assumption | reflexivity].
Qed.

(** ** The zero-interest branch *)

Section ZeroBranch.

Variables (principal monthly_rate emi : Q) (total_months : Z).
Hypothesis rate_not_positive : gtb monthly_rate (lit 0) = false.
Hypothesis months_positive : (0 < total_months)%Z.
Hypothesis principal_positive : 0 < principal.

Local Abbreviation share := (principal / inject_Z total_months).

Lemma share_positive : 0 < share.
Proof.
  apply Qlt_shift_div_l.
  - change 0 with (inject_Z 0). rewrite <- Zlt_Qlt. exact months_positive.
  - rewrite Qmult_0_l. exact principal_positive.
Qed.

Lemma zero_branch_period b :
  share <= b ->
  period_of principal monthly_rate emi total_months b =
  Ok (mkperiod b emi share (inject_Z 0) (b - share)).
Proof.
  intros Hb. unfold period_of. rewrite rate_not_positive.
  change (div principal (of_int total_months))
    with (Qdiv_py principal (inject_Z total_months)).
  rewrite Qdiv_py_Ok by now apply inject_Z_nonzero.
  cbn [Py.bind fst snd].
  apply gtb_false in Hb. rewrite Hb. reflexivity.
Qed.

(** With [k + 1] shares left to pay the loop runs [k + 1] periods, none of
    them clamped. *)
Lemma zero_branch_trace k : forall b ps,
  b == inject_Z (Z.of_nat (S k)) * share ->
  trace principal monthly_rate emi total_months b (S k) ps ->
  length ps = S k /\
  Forall (fun p => p_principal p = share /\ p_interest p = inject_Z 0 /\
                   p_emi_actual p = emi) ps.
Proof.
  pose proof share_positive as Hs.
  induction k as [|k IH]; intros b ps Hb Ht.
  - assert (share <= b) as Hsb.
    { rewrite Hb. change (inject_Z (Z.of_nat 1)) with 1. lra. }
    inversion Ht as [| b' k' p Hp Hc | b' k' p rest Hp Hc Hrest]; subst;
      rewrite (zero_branch_period b Hsb) in Hp; inversion Hp; subst.
    + split; [reflexivity | repeat constructor].
    + inversion Hrest; subst. split; [reflexivity | repeat constructor].
  - pose proof (inject_Z_nat_nonneg (S k)) as Hk.
    pose proof (inject_Z_succ (S k)) as Hsucc.
    assert (0 <= inject_Z (Z.of_nat k) * share) as Hprod.
    { apply Qmult_le_0_compat; [apply inject_Z_nat_nonneg | lra]. }
    assert (b == inject_Z (Z.of_nat k) * share + share + share) as Hb'.
    { rewrite Hb, Hsucc, inject_Z_succ. ring. }
    assert (share <= b) as Hsb by lra.
    inversion Ht as [| b' k' p Hp Hc | b' k' p rest Hp Hc Hrest]; subst;
      rewrite (zero_branch_period b Hsb) in Hp; inversion Hp; subst;
      cbn [p_closing] in *.
    + apply leb_true in Hc. exfalso. change (lit 0) with 0 in Hc. lra.
    + apply IH in Hrest.
      * destruct Hrest as [Hlen Hall]. simpl. split; [now rewrite Hlen |].
        constructor; [simpl; auto | assumption].
      * rewrite Hb, Hsucc. ring.
Qed.

End ZeroBranch.

(** What [generate_schedule] returns when the monthly rate is not
    positive: [total_months] rows of equal principal shares. *)
Lemma zero_branch_schedule principal annual_rate emi total_months start_date r :
  monthly_rate_of annual_rate = Ok r ->
  gtb r (lit 0) = false ->
  (0 < total_months)%Z -> 0 < principal ->
  exists rows ps,
    generate_schedule principal annual_rate total_months start_date emi
    = Ok rows /\
    schedule_trace principal annual_rate total_months emi = Ok ps /\
    Forall2 rounds rows ps /\
    length rows = Z.to_nat total_months /\
    (forall p, In p ps ->
       p_principal p = principal / inject_Z total_months /\
       p_interest p = 0 /\ p_emi_actual p = emi) /\
    (forall x, In x rows ->
       Principal_Component x = Qround2 (principal / inject_Z total_months) /\
       Interest_Component x == 0 /\
       EMI x = Qround2 emi).
Proof.
  intros Hr Hg Hn HP.
  assert (leb principal (lit 0) = false) as HP' by now apply leb_false.
  destruct (generate_schedule_run (L := Q_laws _ Hn) total_months principal
              annual_rate start_date emi Hn HP')
    as (r' & ps & Hr' & Ht & Hst & Hrows).
  rewrite Hr in Hr'. inversion Hr'; subst r'.
  destruct (Z.to_nat total_months) as [|k] eqn:Ek; [lia |].
  apply zero_branch_trace in Ht; try assumption.
  - destruct Ht as [Hlen Hall]. rewrite Forall_forall in Hall.
    eexists; exists ps. split; [exact Hrows |]. split; [exact Hst |].
    split; [apply rows_from_rounds |].
    split; [now rewrite rows_from_length |]. split.
    + intros p Hp. destruct (Hall p Hp) as (H1 & H2 & H3). auto.
    + intros x Hx. apply In_rows_from in Hx.
      destruct Hx as (j & d & p & Hp & ->).
      destruct (Hall p Hp) as (H1 & H2 & H3). simpl.
      rewrite H1, H2, H3. repeat split; reflexivity.
  - rewrite <- Ek, Z2Nat.id by lia.
    field. now apply inject_Z_nonzero.
Qed.

(** In exact arithmetic a zero-rate schedule is never clamped: every period
    has principal part [principal / total_months] and interest 0, and an
    accepted principal gives [total_months] rows. *)
Lemma zero_rate_schedule_exact
    (principal emi : Q) (total_months : Z) (start_date : date) :
  (0 < total_months)%Z ->
  calculate_emi principal 0 total_months
  = Ok (principal / inject_Z total_months) /\
  (exists rows ps,
     generate_schedule principal 0 total_months start_date emi = Ok rows /\
     schedule_trace principal 0 total_months emi = Ok ps /\
     Forall2 rounds rows ps /\
     (0 < principal -> length rows = Z.to_nat total_months) /\
     (forall p, In p ps ->
        p_principal p = principal / inject_Z total_months /\
        p_interest p = 0) /\
     (forall r, In r rows ->
        Principal_Component r = Qround2 (principal / inject_Z total_months) /\
        Interest_Component r == 0)) /\
  (exists e rows,
     calculate_emi 120000 0 12 = Ok e /\ e == 10000 /\
     generate_schedule 120000 0 12 start_date e = Ok rows /\
     length rows = 12%nat /\
     forall r, In r rows ->
       Principal_Component r == 10000 /\ Interest_Component r == 0).
Proof.
  intros Hn.
  assert (Hemi : forall P n, (0 < n)%Z ->
            calculate_emi P 0 n = Ok (P / inject_Z n)).
  { intros P n H. unfold calculate_emi.
    assert ((n <=? 0)%Z = false) as -> by (apply Z.leb_gt; lia).
    change (monthly_rate_of 0) with (Ok (0 / 12 / 100)).
    cbn [Py.bind].
    change (eqb (0 / 12 / 100) (lit 0)) with true. cbv iota.
    apply Qdiv_py_Ok. now apply inject_Z_nonzero. }
  split; [now apply Hemi |]. split.
  - destruct (Qlt_le_dec 0 principal) as [HP | HP].
    + destruct (zero_branch_schedule principal 0 emi total_months start_date
                  (0 / 12 / 100) eq_refl eq_refl Hn HP)
        as (rows & ps & Hrows & Hst & Hrnd & Hlen & Hps & Hall).
      exists rows, ps. split; [exact Hrows |]. split; [exact Hst |].
      split; [exact Hrnd |]. split; [auto |]. split.
      * intros p Hp. destruct (Hps p Hp) as (H1 & H2 & _). auto.
      * intros r Hr. destruct (Hall r Hr) as (H1 & H2 & _). auto.
    + assert (leb principal (lit 0) = true) as HP' by now apply leb_true.
      exists [], []. unfold generate_schedule, schedule_trace.
      rewrite HP', orb_true_r.
      split; [reflexivity |]. split; [reflexivity |].
      split; [constructor |]. split; [intros; lra |].
      split; intros ? [].
  - destruct (zero_branch_schedule 120000 0 (120000 / inject_Z 12) 12
                start_date (0 / 12 / 100) eq_refl eq_refl eq_refl eq_refl)
      as (rows & ps & Hrows & _ & _ & Hlen & _ & Hall).
    exists (120000 / inject_Z 12), rows.
    split; [now apply Hemi |]. split; [reflexivity |].
    split; [exact Hrows |]. split; [exact Hlen |].
    intros r Hr. destruct (Hall r Hr) as (H1 & H2 & _).
    rewrite H1. split; [reflexivity | exact H2].
Qed.

(** ** Balances *)

Section Balances.

Variables (principal monthly_rate emi : Q) (total_months : Z).
Hypothesis months_positive : (0 < total_months)%Z.
Hypothesis principal_positive : 0 < principal.

Local Abbreviation step :=
  (period_of principal monthly_rate emi total_months).
Local Abbreviation run := (trace principal monthly_rate emi total_months).





End Balances.


(** The compound branch of [calculate_emi]. *)
Lemma calculate_emi_compound principal annual_rate total_months :
  (0 < total_months)%Z -> ~ annual_rate / 12 / 100 == 0 ->
  calculate_emi principal annual_rate total_months =
  Qdiv_py (principal * (annual_rate / 12 / 100)
           * (1 + annual_rate / 12 / 100) ^ total_months)
          ((1 + annual_rate / 12 / 100) ^ total_months - 1).
Proof.
  intros Hn Hr. unfold calculate_emi.
  assert ((total_months <=? 0)%Z = false) as -> by (apply Z.leb_gt; lia).
  change (monthly_rate_of annual_rate) with (Ok (annual_rate / 12 / 100)).
  cbn [Py.bind].
  assert (eqb (annual_rate / 12 / 100) (lit 0) = false) as ->.
  { simpl. destruct (Qeq_bool _ _) eqn:E; [| reflexivity].
    apply Qeq_bool_iff in E. contradiction. }
  change (pow (add (lit 1) (annual_rate / 12 / 100)) total_months)
    with (Qpow_py (1 + annual_rate / 12 / 100) total_months).
  unfold Qpow_py.
  assert ((total_months <? 0)%Z = false) as -> by (apply Z.ltb_ge; lia).
  reflexivity.
Qed.

(** C3 (as amended).  For 500000 at 8% over 120 months [calculate_emi]
    returns the value of the amortization formula
    [P * r * (1 + r) ^ n / ((1 + r) ^ n - 1)] with [r = 8 / 12 / 100], which
    is within 0.01 of 6066.38; it takes that formula for every non-zero
    monthly rate. *)
Theorem emi_of_first_scenario :
  calculate_emi 500000 8 120
  = Ok (500000 * (8 / 12 / 100) * (1 + 8 / 12 / 100) ^ 120
        / ((1 + 8 / 12 / 100) ^ 120 - 1)) /\
  Qabs (500000 * (8 / 12 / 100) * (1 + 8 / 12 / 100) ^ 120
        / ((1 + 8 / 12 / 100) ^ 120 - 1) - (606638 # 100)) <= 1 # 100 /\
  (forall principal annual_rate total_months,
     (0 < total_months)%Z -> ~ annual_rate / 12 / 100 == 0 ->
     calculate_emi principal annual_rate total_months =
     Qdiv_py (principal * (annual_rate / 12 / 100)
              * (1 + annual_rate / 12 / 100) ^ total_months)
             ((1 + annual_rate / 12 / 100) ^ total_months - 1)).
Proof.
  split; [vm_compute; reflexivity |].
  split; [apply Qle_bool_iff; vm_compute; reflexivity |].
  apply calculate_emi_compound.
Qed.

(** The value the claim gives, 6067.97, is more than a cent away. *)
Lemma emi_of_first_scenario_is_not_6067_97 :
  exists e,
    calculate_emi 500000 8 120 = Ok e /\
    ~ Qabs (e - (606797 # 100)) <= 1 # 100.
Proof.
  eexists. split; [vm_compute; reflexivity |].
  intros H. apply Qle_bool_iff in H. vm_compute in H. discriminate H.
Qed.

End ExactRuns.

(** * The zero-rate schedule, for every arithmetic *)

Section ZeroRate.

Context {F : Type} {N : PyNum F}.
Variable total_months : Z.
Context {L : PyNumLaws N total_months}.

(** C4.  With a zero annual rate and [total_months > 0]: [calculate_emi]
    returns exactly [principal / total_months]; in the schedule every period
    has interest 0 and principal part [principal / total_months], except
    that a clamped period repays its balance instead, and only the last
    period can be clamped.  For 120000 over 12 months the payment is exactly
    10000 and the schedule has 12 rows, each with principal 10000 and
    interest 0. *)
Theorem zero_rate_schedule (principal emi : F) (start_date : date) :
  0 < total_months ->
  calculate_emi principal (lit 0) total_months
  = div principal (of_int total_months) /\
  (exists share rows ps,
     div principal (of_int total_months) = Ok share /\
     generate_schedule principal (lit 0) total_months start_date emi
     = Ok rows /\
     schedule_trace principal (lit 0) total_months emi = Ok ps /\
     Forall2 rounds rows ps /\
     (forall p, In p ps ->
        p_interest p = lit 0 /\
        ((gtb share (p_balance p) = false /\ p_principal p = share)
         \/ (gtb share (p_balance p) = true /\
             p_principal p = p_balance p))) /\
     (forall ps' p ps'', ps = ps' ++ p :: ps'' -> ps'' <> [] ->
        p_principal p = share)) /\
  (exists e rows,
     calculate_emi 120000 0 12%Z = Ok e /\ e == 10000 /\
     generate_schedule 120000 0 12%Z start_date e = Ok rows /\
     length rows = 12%nat /\
     forall r, In r rows ->
       Principal_Component r == 10000 /\ Interest_Component r == 0)%Q.
Proof.
  intros Hn.
  destruct zero_rate_ok as (z & Hz & Hz0 & Hzg).
  destruct (div_months_ok principal) as [share Hshare].
  split; [| split].
  - unfold calculate_emi.
    assert ((total_months <=? 0) = false) as -> by (apply Z.leb_gt; lia).
    rewrite Hz. simpl. now rewrite Hz0.
  - exists share.
    destruct (leb principal (lit 0)) eqn:HP.
    + exists [], []. unfold generate_schedule, schedule_trace.
      rewrite HP, orb_true_r.
      split; [exact Hshare |]. split; [reflexivity |].
      split; [reflexivity |]. split; [constructor |]. split.
      * intros p [].
      * intros ps' p ps'' E. destruct ps'; discriminate E.
    + destruct (generate_schedule_run total_months principal (lit 0)
                  start_date emi Hn HP) as (r & ps & Hr & Ht & Hst & Hg).
      rewrite Hz in Hr. inversion Hr; subst r.
      eexists; exists ps. split; [exact Hshare |]. split; [exact Hg |].
      split; [exact Hst |]. split; [apply rows_from_rounds |]. split.
      * intros p Hp.
        pose proof (trace_periods _ _ _ _ _ _ _ Ht p Hp) as Hstep.
        destruct (period_of_cases _ _ _ _ _ _ Hstep)
          as (i & pc & [(Hpos & _) | (_ & -> & Hd)] & Hshape);
          [congruence |].
        rewrite Hshare in Hd. inversion Hd; subst pc.
        destruct Hshape as [[Hg' ->] | [Hg' ->]]; simpl; auto.
      * intros ps' p ps'' E Hne.
        destruct (inner_periods_nominal total_months _ _ _ _ _ _ HP Ht
                    _ _ _ E Hne)
          as (i & pc & [(Hpos & _) | (_ & _ & Hd)] & _ & ->);
          [congruence |].
        rewrite Hshare in Hd. inversion Hd. reflexivity.
  - destruct (zero_rate_schedule_exact 120000 0 12 start_date eq_refl)
      as (_ & _ & Hscn).
    exact Hscn.
Qed.

End ZeroRate.

(** * Concrete runs *)

Section Runs.

Local Open Scope Q_scope.



(** C10, the claim as stated fails, three ways.  At -1800 % a year over 2
    months the compound formula returns 600, which is
    [principal / total_months], and the rows of the branch without interest
    follow that payment: each shows payment 600, principal 600 and interest
    0.  In binary64 the negative rate [-0x1p-1074] gives the monthly rate
    [-0.0], which [== 0] takes for zero: [calculate_emi] does not evaluate
    the compound formula, it returns [principal / total_months].  And in
    binary64 the third period of 100 at -12 % over 3 months is clamped: its
    principal part is the balance left, just below [100 / 3]. *)
Lemma negative_rate_payment_can_match_the_rows :
  ((0 < 2)%Z /\ - (1800) < 0 /\
   exists emi rows,
     calculate_emi 1200 (- (1800)) 2 = Ok emi /\
     emi == 600 /\
     generate_schedule 1200 (- (1800)) 2 (mkdate 2024 1 1) emi = Ok rows /\
     length rows = 2%nat /\
     forall r, In r rows ->
       EMI r == 600 /\ Principal_Component r == 600 /\
       Interest_Component r == 0 /\
       EMI r == Principal_Component r + Interest_Component r) /\
  (exists rate r,
     rate = FloatOps.SF2Prim (SpecFloat.S754_finite true 1 (- (1074))) /\
     PrimFloat.ltb rate (Binary64.of_Z 0) = true /\
     monthly_rate_of (N := Binary64.B64_run) rate = Ok r /\
     PrimFloat.eqb r (Binary64.of_Z 0) = true /\
     calculate_emi (N := Binary64.B64_run) (Binary64.of_Z 1200) rate 2
     = Ok (Binary64.of_Z 600)) /\
  (exists ps p,
     schedule_trace (N := Binary64.B64_run) (Binary64.of_Z 100)
       (Binary64.of_Z (- 12)) 3 (Binary64.of_Z 50) = Ok ps /\
     nth_error ps 2 = Some p /\
     p_principal p = p_balance p /\
     PrimFloat.ltb (p_principal p)
       (PrimFloat.div (Binary64.of_Z 100) (Binary64.of_Z 3)) = true).
Proof.
  split; [| split].
  - split; [reflexivity |]. split; [reflexivity |].
    eexists; eexists. split; [vm_compute; reflexivity |].
    split; [reflexivity |]. split; [vm_compute; reflexivity |].
    split; [reflexivity |].
    intros r [<- | [<- | []]]; repeat split.
  - eexists; eexists. split; [reflexivity |].
    split; [vm_compute; reflexivity |]. split; [vm_compute; reflexivity |].
    split; vm_compute; reflexivity.
  - eexists; eexists. split; [vm_compute; reflexivity |].
    split; [reflexivity |]. split; vm_compute; reflexivity.
Qed.

(** 1000 at 6% for one month in binary64: the payment comes out as
    1005.0000000000214, so the single row is corrected; it shows payment
    1005.0, principal 1000.0, interest 5.0 and closes on 0.0. *)
Example one_month_schedule :
  exists emi,
    calculate_emi (N := Binary64.B64_run) (Binary64.of_Z 1000)
      (Binary64.of_Z 6) 1 = Ok emi /\
    PrimFloat.ltb (Binary64.of_Z 1005) emi = true /\
    generate_schedule (N := Binary64.B64_run) (Binary64.of_Z 1000)
      (Binary64.of_Z 6) 1 (mkdate 2024 1 1) emi
    = Ok [mkrow 1 (Some (mkdate 2024 1 1)) (Binary64.of_Z 1000)
                (Binary64.of_Z 1005) (Binary64.of_Z 1000)
                (Binary64.of_Z 5) (Binary64.of_Z 0)].
Proof.
  eexists. split; [vm_compute; reflexivity |].
  split; vm_compute; reflexivity.
Qed.

(** C9, the claim as stated fails: a start date beyond the [Timestamp]
    range makes [pd.date_range] raise, and the row is labelled [None]. *)
Lemma out_of_range_start_gives_no_date :
  exists rows r,
    generate_schedule 1000 0 1 (mkdate 2300 1 1) 1000 = Ok rows /\
    In r rows /\
    Date r <> Some (advance_months (mkdate 2300 1 1) (Month_no r - 1)).
Proof.
  eexists; eexists. split; [vm_compute; reflexivity |].
  split; [left; reflexivity | discriminate].
Qed.


(** The compound formula divides by zero at a monthly rate of -2 over an
    even number of months. *)
Example calculate_emi_can_raise :
  calculate_emi 1000 (- (2400)) 2 = Raise ZeroDivisionError.
Proof. reflexivity. Qed.




Lemma negative_rate_branches_disagree_witness :
  calculate_emi 1200 (- (12)) 2
  = (p1 <- Qpow_py (1 + - (12) / 12 / 100) 2 ;;
     p2 <- Qpow_py (1 + - (12) / 12 / 100) 2 ;;
     Qdiv_py (1200 * (- (12) / 12 / 100) * p1) (p2 - 1)) /\
  (leb 1200 (lit 0) = false ->
   exists share rows ps,
     Qdiv_py 1200 (inject_Z 2) = Ok share /\
     generate_schedule 1200 (- (12)) 2 (mkdate 2024 1 1) 595 = Ok rows /\
     schedule_trace 1200 (- (12)) 2 595 = Ok ps /\
     Forall2 rounds rows ps /\
     (forall p, In p ps ->
        p_interest p = 0 /\
        ((gtb share (p_balance p) = false /\
          p_principal p = share /\ p_emi_actual p = 595)
         \/ (gtb share (p_balance p) = true /\
             p_principal p = p_balance p /\
             p_emi_actual p = p_balance p + 0))) /\
     (forall ps' p ps'', ps = ps' ++ p :: ps'' -> ps'' <> [] ->
        p_principal p = share /\ p_emi_actual p = 595) /\
     (forall emi', exists ps',
        schedule_trace 1200 (- (12)) 2 emi' = Ok ps' /\
        Forall2 same_amounts ps ps')).
Proof.
  apply (negative_rate_branches_disagree 2 (L := Q_laws 2 eq_refl)
           1200 (- (12)) 595 (- (12) / 12 / 100) (mkdate 2024 1 1));
    reflexivity.
Defined.

Lemma zero_rate_schedule_witness :
  calculate_emi 100 0 3 = Qdiv_py 100 (inject_Z 3) /\
  (exists share rows ps,
     Qdiv_py 100 (inject_Z 3) = Ok share /\
     generate_schedule 100 0 3 (mkdate 2024 1 1) 33 = Ok rows /\
     schedule_trace 100 0 3 33 = Ok ps /\
     Forall2 rounds rows ps /\
     (forall p, In p ps ->
        p_interest p = 0 /\
        ((gtb share (p_balance p) = false /\ p_principal p = share)
         \/ (gtb share (p_balance p) = true /\
             p_principal p = p_balance p))) /\
     (forall ps' p ps'', ps = ps' ++ p :: ps'' -> ps'' <> [] ->
        p_principal p = share)) /\
  (exists e rows,
     calculate_emi 120000 0 12 = Ok e /\ e == 10000 /\
     generate_schedule 120000 0 12 (mkdate 2024 1 1) e = Ok rows /\
     length rows = 12%nat /\
     forall r, In r rows ->
       Principal_Component r == 10000 /\ Interest_Component r == 0).
Proof.
  apply (zero_rate_schedule 3 (L := Q_laws 3 eq_refl) 100 33
           (mkdate 2024 1 1)). reflexivity.
Defined.

Lemma month_numbers_and_length_witness :
  exists rows ps,
    generate_schedule 1000 12 3 (mkdate 2024 1 15) 340 = Ok rows /\
    schedule_trace 1000 12 3 340 = Ok ps /\
    Forall2 rounds rows ps /\
    numbered_from_one rows /\
    (Z.of_nat (length rows) <= 3)%Z /\
    stops_on_closed_balance 3 ps.
Proof.
  apply (month_numbers_and_length 3 (L := Q_laws 3 eq_refl) 1000 12 340
           (mkdate 2024 1 15)); reflexivity.
Defined.

Lemma only_last_payment_is_adjusted_witness :
  exists rows,
    generate_schedule 1000 12 3 (mkdate 2024 1 15) 340 = Ok rows /\
    forall j r, nth_error rows j = Some r -> (S j < length rows)%nat ->
    EMI r = round2 340.
Proof.
  apply (only_last_payment_is_adjusted 3 (L := Q_laws 3 eq_refl) 1000 12 340
           (mkdate 2024 1 15)); reflexivity.
Defined.

Lemma dates_are_month_starts_witness :
  exists rows,
    generate_schedule 1000 12 3 (mkdate 2024 1 15) 340 = Ok rows /\
    (forall j r, nth_error rows j = Some r ->
       Month_no r = (Z.of_nat j + 1)%Z /\
       Date r =
       match date_range_MS (mkdate 2024 1 15) 3 with
       | Some _ => Some (advance_months (mkdate 2024 1 15) (Month_no r - 1))
       | None => None
       end /\
       (forall d, Date r = Some d -> day d = 1%Z)) /\
    (day (mkdate 2024 1 15) = 1%Z ->
     (1 <= month (mkdate 2024 1 15) <= 12)%Z ->
     advance_months (mkdate 2024 1 15) 0 = mkdate 2024 1 15).
Proof.
  apply (dates_are_month_starts 3 (L := Q_laws 3 eq_refl) 1000 12 340
           (mkdate 2024 1 15)); reflexivity.
Defined.

End Runs.

(** * The page, the dates and the loop beyond the claims *)

Section PageStructure.

Context {F : Type} {N : PyNum F}.

(** The first iteration of the loop always appends a row. *)
Lemma schedule_rows_first principal r emi total_months dates k i b rows :
  schedule_rows principal r emi total_months dates (S k) i b = Ok rows ->
  exists x rest,
    rows = x :: rest /\ Month_no x = i + 1 /\ Opening_Balance x = round2 b.
Proof.
  cbn [schedule_rows].
  destruct (period_of principal r emi total_months b) as [p|e] eqn:Hp;
    cbn [Py.bind]; [| discriminate].
  apply period_of_balance in Hp.
  destruct (dates_get dates i) as [d|e]; cbn [Py.bind]; [| discriminate].
  destruct (leb (p_closing p) (lit 0)).
  - intros H. injection H as <-. do 2 eexists.
    split; [reflexivity |]. simpl. now rewrite Hp.
  - destruct (schedule_rows _ _ _ _ _ k (i + 1) (p_closing p)) as [rest|e];
      cbn [Py.bind]; [| discriminate].
    intros H. injection H as <-. do 2 eexists.
    split; [reflexivity |]. simpl. now rewrite Hp.
Qed.

Lemma rows_from_undated (dates dates' : list (option date)) ps : forall i,
  map undated (rows_from dates i ps) = map undated (rows_from dates' i ps).
Proof.
  induction ps as [|p ps IH]; intros i; simpl; [reflexivity |].
  now rewrite IH.
Qed.

(** X1.  Whenever the page gets to its result section, the schedule section
    shows a table: the inputs that pass the page's two checks pass the guard
    of [generate_schedule] as well, whose loop then appends at least one
    row, so that the "Schedule could not be generated" message is never
    shown.  The first row is month 1 and opens on the rounded principal. *)
Theorem results_always_include_a_schedule
    (submitted : bool) (principal annual_rate : F) (total_months : Z)
    (start_date : date) (res : result F) :
  display_results submitted principal annual_rate total_months start_date
  = Ok (Showing res) ->
  submitted = true /\ leb principal (lit 0) = false /\ 0 < total_months /\
  calculate_emi principal annual_rate total_months = Ok (monthly_emi res) /\
  total_payment res = mul (monthly_emi res) (of_int total_months) /\
  total_interest res = sub (total_payment res) principal /\
  exists r rows,
    generate_schedule principal annual_rate total_months start_date
                      (monthly_emi res) = Ok (r :: rows) /\
    schedule res = Schedule_shown (r :: rows) (chart_df (r :: rows)) /\
    Month_no r = 1 /\ Opening_Balance r = round2 principal.
Proof.
  unfold display_results.
  destruct submitted; [| discriminate].
  destruct (leb principal (lit 0)) eqn:HP; [discriminate |].
  destruct (total_months <=? 0) eqn:Hn; [discriminate |].
  apply Z.leb_gt in Hn.
  destruct (calculate_emi principal annual_rate total_months) as [emi|e];
    simpl; [| discriminate].
  destruct (div annual_rate (lit 12)) as [shown|e]; simpl; [| discriminate].
  destruct (generate_schedule principal annual_rate total_months start_date
              emi) as [rows|e] eqn:Hg; simpl; [| discriminate].
  assert (exists x rest, rows = x :: rest /\ Month_no x = 1 /\
                         Opening_Balance x = round2 principal)
    as (x & rest & -> & Hno & Hopen).
  { unfold generate_schedule in Hg.
    assert ((total_months <=? 0) = false) as E by (apply Z.leb_gt; lia).
    rewrite E, HP in Hg. simpl in Hg.
    destruct (monthly_rate_of annual_rate) as [r|e]; simpl in Hg;
      [| discriminate].
    destruct (Z.to_nat total_months) as [|k] eqn:Ek; [lia |].
    apply schedule_rows_first in Hg. exact Hg. }
  intros H. inversion H; subst res. simpl.
  repeat (split; [reflexivity || assumption |]).
  exists x, rest. repeat split; assumption.
Qed.

(** X2.  The start date reaches nothing but the [Date] column: two calls
    that differ in it alone raise the same exception or return tables with
    the same rows, dates apart. *)
Theorem start_date_only_sets_the_dates
    (principal annual_rate emi : F) (total_months : Z) (d1 d2 : date) :
  match generate_schedule principal annual_rate total_months d1 emi,
        generate_schedule principal annual_rate total_months d2 emi with
  | Ok rows1, Ok rows2 => map undated rows1 = map undated rows2
  | Raise e1, Raise e2 => e1 = e2
  | _, _ => False
  end.
Proof.
  unfold generate_schedule.
  destruct ((total_months <=? 0) || leb principal (lit 0)) eqn:Hguard;
    [reflexivity |].
  apply orb_false_iff in Hguard. destruct Hguard as [Hn _].
  apply Z.leb_gt in Hn.
  destruct (monthly_rate_of annual_rate) as [r|e]; simpl; [| reflexivity].
  rewrite !schedule_rows_periods
    by (rewrite ?schedule_dates_length; simpl; lia).
  destruct (schedule_periods principal r emi total_months
              (Z.to_nat total_months) principal) as [ps|e]; simpl;
    [| reflexivity].
  apply rows_from_undated.
Qed.

End PageStructure.

(** ** The dates column *)

Lemma month_start_index m : month_index (month_start m) = m.
Proof.
  unfold month_index, month_start. simpl.
  Z.div_mod_to_equations. lia.
Qed.

Lemma month_start_valid m :
  day (month_start m) = 1 /\ 1 <= month (month_start m) <= 12.
Proof.
  unfold month_start. simpl. split; [reflexivity |].
  Z.div_mod_to_equations. lia.
Qed.

(** The next month start is a later date. *)
Lemma month_start_later m :
  date_leb (month_start (m + 1)) (month_start m) = false.
Proof.
  unfold date_leb, month_start. simpl.
  destruct (Z.ltb_spec ((m + 1) / 12) (m / 12)) as [H1 | H1];
    [exfalso; Z.div_mod_to_equations; lia |].
  destruct (Z.eqb_spec ((m + 1) / 12) (m / 12)) as [H2 | H2];
    [| reflexivity].
  destruct (Z.ltb_spec ((m + 1) mod 12 + 1) (m mod 12 + 1)) as [H3 | H3];
    [exfalso; Z.div_mod_to_equations; lia |].
  destruct (Z.eqb_spec ((m + 1) mod 12 + 1) (m mod 12 + 1)) as [H4 | H4];
    [exfalso; Z.div_mod_to_equations; lia | reflexivity].
Qed.

Section DatesColumn.

Context {F : Type} {N : PyNum F}.
Variable total_months : Z.
Context {L : PyNumLaws N total_months}.

(** X3.  The [Date] column is all dates or all [None] (the [except] branch
    replaces the whole list); every date is the first day of a month from 1
    to 12; and from one row to the next the date moves on by exactly one
    calendar month, so that dates never repeat or go back. *)
Theorem dates_step_by_one_month
    (principal annual_rate emi : F) (start_date : date) :
  0 < total_months -> leb principal (lit 0) = false ->
  exists rows,
    generate_schedule principal annual_rate total_months start_date emi
    = Ok rows /\
    (forall r r', In r rows -> In r' rows ->
       Date r = None -> Date r' = None) /\
    (forall r d, In r rows -> Date r = Some d ->
       day d = 1 /\ 1 <= month d <= 12) /\
    (forall j r r' d d',
       nth_error rows j = Some r -> nth_error rows (S j) = Some r' ->
       Date r = Some d -> Date r' = Some d' ->
       month_index d' = month_index d + 1 /\ date_leb d' d = false).
Proof.
  intros Hn HP.
  destruct (generate_schedule_run total_months principal annual_rate
              start_date emi Hn HP) as (r & ps & Hr & Ht & Hst & Hg).
  eexists. split; [exact Hg |].
  set (rows := rows_from (schedule_dates start_date total_months) 0 ps).
  assert (Hdate : forall j x, nth_error rows j = Some x ->
            Date x = match date_range_MS start_date total_months with
                     | Some _ => Some (advance_months start_date (Z.of_nat j))
                     | None => None
                     end).
  { intros j x Hx.
    pose proof (nth_error_Some rows j) as Hlt.
    unfold rows in Hlt. rewrite rows_from_length in Hlt.
    assert (j < length ps)%nat as Hj by (apply Hlt; fold rows; congruence).
    apply trace_length in Ht.
    apply rows_from_nth in Hx. destruct Hx as (p & _ & ->). simpl.
    rewrite Nat2Z.id. apply schedule_dates_nth. lia. }
  split; [| split].
  - intros x x' Hx Hx' Hnone.
    apply In_nth_error in Hx. destruct Hx as [j Hj].
    apply In_nth_error in Hx'. destruct Hx' as [j' Hj'].
    rewrite (Hdate _ _ Hj) in Hnone. rewrite (Hdate _ _ Hj').
    destruct (date_range_MS start_date total_months);
      [discriminate | reflexivity].
  - intros x d Hx Hd.
    apply In_nth_error in Hx. destruct Hx as [j Hj].
    rewrite (Hdate _ _ Hj) in Hd.
    destruct (date_range_MS start_date total_months); [| discriminate].
    inversion Hd. apply month_start_valid.
  - intros j x x' d d' Hx Hx' Hd Hd'.
    rewrite (Hdate _ _ Hx) in Hd. rewrite (Hdate _ _ Hx') in Hd'.
    destruct (date_range_MS start_date total_months); [| discriminate].
    rewrite Nat2Z.inj_succ in Hd'.
    injection Hd as <-. injection Hd' as <-. unfold advance_months.
    replace (rollforward start_date + Z.succ (Z.of_nat j))
      with (rollforward start_date + Z.of_nat j + 1) by lia.
    rewrite !month_start_index. split; [reflexivity |].
    apply month_start_later.
Qed.

End DatesColumn.

(** ** A payment above the payoff amount *)

Section Overpayment.

Context {F : Type} {N : PyNum F}.
Variable total_months : Z.
Context {L : PyNumLaws N total_months}.

(** X5.  When interest is charged and the principal part of the first
    period, [emi - principal * monthly_rate], exceeds the principal, the
    final correction cuts the payment to the payoff amount: the schedule is
    the single row of month 1 that shows the payment
    [principal + interest], repays the whole principal and closes on
    [principal - principal], a balance [<= 0]. *)
Theorem overpayment_is_cut_to_the_payoff
    (principal annual_rate emi r : F) (start_date : date) :
  0 < total_months -> leb principal (lit 0) = false ->
  monthly_rate_of annual_rate = Ok r -> gtb r (lit 0) = true ->
  gtb (sub emi (mul principal r)) principal = true ->
  exists d,
    generate_schedule principal annual_rate total_months start_date emi
    = Ok [mkrow 1 d (round2 principal)
                (round2 (add principal (mul principal r)))
                (round2 principal) (round2 (mul principal r))
                (round2 (sub principal principal))] /\
    leb (sub principal principal) (lit 0) = true.
Proof.
  intros Hn HP Hr Hpos Hover.
  destruct (generate_schedule_run total_months principal annual_rate
              start_date emi Hn HP) as (r' & ps & Hr' & Ht & Hst & Hrows).
  rewrite Hr in Hr'. injection Hr' as <-.
  pose proof (sub_self_closed _ _ Hover HP) as Hclosed.
  assert (period_of principal r emi total_months principal
          = Ok (mkperiod principal (add principal (mul principal r))
                         principal (mul principal r)
                         (sub principal principal))) as Hstep.
  { unfold period_of. rewrite Hpos. cbn [Py.bind fst snd].
    now rewrite Hover. }
  destruct (Z.to_nat total_months) as [|k] eqn:Ek; [lia |].
  assert (ps = [mkperiod principal (add principal (mul principal r))
                         principal (mul principal r)
                         (sub principal principal)]) as ->.
  { inversion Ht as [| b' k' p Hp Hc | b' k' p rest Hp Hc Hrest]; subst;
      rewrite Hstep in Hp; injection Hp as <-; [reflexivity |].
    cbn [p_closing] in Hc. congruence. }
  eexists. split; [exact Hrows | exact Hclosed].
Qed.

End Overpayment.

(** * More on schedules in exact arithmetic *)

Section ExactLoop.

Local Open Scope Q_scope.

Section PositiveRate.

Variables (principal monthly_rate emi : Q) (total_months : Z).
Hypothesis rate_positive : 0 < monthly_rate.

Local Abbreviation step :=
  (period_of principal monthly_rate emi total_months).
Local Abbreviation run := (trace principal monthly_rate emi total_months).



End PositiveRate.


End ExactLoop.

(** * Binary64: what rounding does to a small rate *)

Module Binary64Facts.

Import Binary64.

(** X12.  In binary64 the compound branch divides by
    [math.pow(1 + monthly_rate, total_months) - 1]: for a rate that is not
    zero but so small that [1 + monthly_rate] rounds to [1.0], where
    [math.pow] returns [1.0], the denominator is [0.0] and [calculate_emi]
    raises [ZeroDivisionError]. *)
Theorem rate_lost_in_rounding_raises math_pow round_2
    (principal annual_rate r : float) (total_months : Z) :
  0 < total_months ->
  monthly_rate_of (N := B64_PyNum math_pow round_2) annual_rate = Ok r ->
  PrimFloat.eqb r (of_Z 0) = false ->
  PrimFloat.add (of_Z 1) r = of_Z 1 ->
  math_pow (of_Z 1) total_months = Ok (of_Z 1) ->
  calculate_emi (N := B64_PyNum math_pow round_2)
                principal annual_rate total_months
  = Raise ZeroDivisionError.
Proof.
  intros Hn Hr Hnz Hone Hpow.
  unfold calculate_emi.
  assert ((total_months <=? 0) = false) as -> by (apply Z.leb_gt; lia).
  rewrite Hr. cbn [Py.bind].
  cbn [eqb add pow lit B64_PyNum].
  rewrite Hnz, Hone, Hpow. cbn [Py.bind].
  cbn [div sub lit B64_PyNum]. unfold div_py.
  assert (PrimFloat.eqb (PrimFloat.sub (of_Z 1) (of_Z 1)) PrimFloat.zero
          = true) as -> by (vm_compute; reflexivity).
  reflexivity.
Qed.

End Binary64Facts.

(** * More concrete runs *)

Section MoreRuns.

Local Open Scope Q_scope.

Lemma results_always_include_a_schedule_witness :
  exists res r rows,
    display_results true 1200 0 12 (mkdate 2024 1 15) = Ok (Showing res) /\
    generate_schedule 1200 0 12 (mkdate 2024 1 15) (monthly_emi res)
    = Ok (r :: rows) /\
    schedule res = Schedule_shown (r :: rows) (chart_df (r :: rows)) /\
    Month_no r = 1%Z /\ Opening_Balance r = round2 1200.
Proof.
  assert (exists res, display_results true 1200 0 12 (mkdate 2024 1 15)
                      = Ok (Showing res)) as [res H]
    by (eexists; vm_compute; reflexivity).
  destruct (results_always_include_a_schedule true 1200 0 12
              (mkdate 2024 1 15) res H)
    as (_ & _ & _ & _ & _ & _ & r & rows & H1 & H2 & H3 & H4).
  exists res, r, rows. auto.
Defined.

Lemma dates_step_by_one_month_witness :
  exists rows,
    generate_schedule 1000 12 3 (mkdate 2024 1 15) 340 = Ok rows /\
    (forall r r', In r rows -> In r' rows ->
       Date r = None -> Date r' = None) /\
    (forall r d, In r rows -> Date r = Some d ->
       day d = 1%Z /\ (1 <= month d <= 12)%Z) /\
    (forall j r r' d d',
       nth_error rows j = Some r -> nth_error rows (S j) = Some r' ->
       Date r = Some d -> Date r' = Some d' ->
       month_index d' = (month_index d + 1)%Z /\ date_leb d' d = false).
Proof.
  apply (dates_step_by_one_month 3 (L := Q_laws 3 eq_refl) 1000 12 340
           (mkdate 2024 1 15)); reflexivity.
Defined.

Lemma overpayment_is_cut_to_the_payoff_witness :
  exists d,
    generate_schedule 1000 12 3 (mkdate 2024 1 15) 2000
    = Ok [mkrow 1 d (Qround2 1000)
                (Qround2 (1000 + 1000 * (12 / 12 / 100)))
                (Qround2 1000) (Qround2 (1000 * (12 / 12 / 100)))
                (Qround2 (1000 - 1000))] /\
    leb (1000 - 1000) (lit 0) = true.
Proof.
  apply (overpayment_is_cut_to_the_payoff 3 (L := Q_laws 3 eq_refl)
           1000 12 2000 (12 / 12 / 100) (mkdate 2024 1 15));
    reflexivity.
Defined.


Lemma rate_lost_in_rounding_raises_witness :
  calculate_emi
    (N := Binary64.B64_PyNum
            (fun x n => Ok (Z.iter n (PrimFloat.mul x) (Binary64.of_Z 1)))
            (fun x => x))
    (Binary64.of_Z 500000)
    (PrimFloat.div (Binary64.of_Z 1) (Binary64.of_Z (10 ^ 15))) 120
  = Raise ZeroDivisionError.
Proof.
  apply (Binary64Facts.rate_lost_in_rounding_raises _ _ _ _
           (PrimFloat.div
              (PrimFloat.div
                 (PrimFloat.div (Binary64.of_Z 1) (Binary64.of_Z (10 ^ 15)))
                 (Binary64.of_Z 12))
              (Binary64.of_Z 100)));
    vm_compute; reflexivity.
Defined.

End MoreRuns.
